(** * CustomTranslator: keyword-protected translation pipeline (main.go)

    A shallow embedding of [main.go]: the Go strings functions the handlers
    rely on ([strings.ReplaceAll], [fmt.Sprintf "KW%dPLH"]), the two
    substitution passes [replaceKeywordsWithPlaceholders] and
    [replacePlaceholdersWithKeywords], the translator call [translateText]
    and the two handlers [postEvent] and [getEvent] over the global
    [events] table. *)

From Stdlib Require Import Ascii String Decimal DecimalNat DecimalString NArith.
From stdpp Require Import gmap strings list fin_maps.

Local Open Scope nat_scope.

(** ** Go strings as byte sequences *)

(** A Go string is an immutable sequence of bytes; [ascii] is the 8-bit
    byte. *)
Abbreviation bytes := (list ascii).

Definition bs (s : string) : bytes := list_ascii_of_string s.
Definition str (l : bytes) : string := string_of_list_ascii l.

Module GoStrings.

(** [strings.HasPrefix]. *)
Fixpoint hasPrefix (s p : bytes) : bool :=
  match p, s with
  | [], _ => true
  | _ :: _, [] => false
  | c :: p', d :: s' => bool_decide (c = d) && hasPrefix s' p'
  end.

(** [strings.Index]: position of the first instance of [sub] in [s];
    [None] stands for Go's -1. *)
Fixpoint index (s sub : bytes) {struct s} : option nat :=
  if hasPrefix s sub then Some 0
  else match s with
       | [] => None
       | _ :: s' => S <$> index s' sub
       end.

(** Width in bytes of the first UTF-8 sequence of [s], as computed by
    [utf8.DecodeRuneInString]: an invalid or truncated encoding has
    width 1. *)
Definition runeWidth (s : bytes) : nat :=
  match s with
  | [] => 0
  | c0 :: r =>
    let x := N_of_ascii c0 in
    if (x <? 0x80)%N then 1
    else if ((x <? 0xC2) || (0xF4 <? x))%N then 1
    else
      let sz := if (x <? 0xE0)%N then 2 else if (x <? 0xF0)%N then 3 else 4 in
      let lo := if (x =? 0xE0)%N then 0xA0%N
                else if (x =? 0xF0)%N then 0x90%N else 0x80%N in
      let hi := if (x =? 0xED)%N then 0x9F%N
                else if (x =? 0xF4)%N then 0x8F%N else 0xBF%N in
      let cont (c : ascii) := ((0x80 <=? N_of_ascii c) && (N_of_ascii c <=? 0xBF))%N in
      if length s <? sz then 1
      else match r with
           | [] => 1
           | c1 :: r1 =>
             if negb ((lo <=? N_of_ascii c1) && (N_of_ascii c1 <=? hi))%N then 1
             else if sz <=? 2 then 2
             else match r1 with
                  | [] => 1
                  | c2 :: r2 =>
                    if negb (cont c2) then 1
                    else if sz <=? 3 then 3
                    else match r2 with
                         | [] => 1
                         | c3 :: _ => if negb (cont c3) then 1 else 4
                         end
                  end
           end
  end.

(** [utf8.RuneCountInString]; the loop consumes at least one byte per
    round, so [length s] rounds are enough. *)
Fixpoint runeCountLoop (fuel : nat) (s : bytes) : nat :=
  match fuel, s with
  | S f, _ :: _ => S (runeCountLoop f (drop (runeWidth s) s))
  | _, _ => 0
  end.

Definition runeCount (s : bytes) : nat := runeCountLoop (length s) s.

(** The loop of [strings.Count] for a non-empty [sub]: count the
    non-overlapping instances from the left. *)
Fixpoint countLoop (fuel : nat) (s sub : bytes) : nat :=
  match fuel with
  | 0 => 0
  | S f =>
    match index s sub with
    | None => 0
    | Some i => S (countLoop f (drop (i + length sub) s) sub)
    end
  end.

(** [strings.Count]: for the empty [sub] it is the number of runes plus
    one. *)
Definition count (s sub : bytes) : nat :=
  match sub with
  | [] => runeCount s + 1
  | _ :: _ => countLoop (length s) s sub
  end.

(** The replacement loop of [strings.Replace], run on the unread rest
    [s[start:]]: round [i] copies the text up to the next instance, then
    [new]. For the empty [old] the instance follows the next rune (and is
    at the very start in round 0). *)
Fixpoint replaceLoop (n : nat) (first : bool) (rest old new : bytes) : bytes :=
  match n with
  | 0 => rest
  | S n' =>
    let j := match old with
             | [] => if first then 0 else runeWidth rest
             | _ :: _ => default 0 (index rest old)
             end in
    take j rest ++ new ++ replaceLoop n' false (drop (j + length old) rest) old new
  end.

(** [strings.ReplaceAll s old new = strings.Replace s old new (-1)]. *)
Definition replaceAll (s old new : bytes) : bytes :=
  if decide (old = new) then s
  else match count s old with
       | 0 => s
       | S m => replaceLoop (S m) true s old new
       end.

End GoStrings.

(** The functions above on [string] values. *)
Definition Index (s sub : string) : option nat := GoStrings.index (bs s) (bs sub).
Definition ReplaceAll (s old new : string) : string :=
  str (GoStrings.replaceAll (bs s) (bs old) (bs new)).

(** [fmt.Sprintf "%d" i] for a non-negative [int]. *)
Definition sprint_d (i : nat) : string := NilZero.string_of_uint (Nat.to_uint i).

(** ** The substitution passes *)

(** [fmt.Sprintf("KW%dPLH", i)] *)
Definition placeholder (i : nat) : string := "KW" +:+ sprint_d i +:+ "PLH".

(** The loop body of [replaceKeywordsWithPlaceholders], from index [i] on:
    the text is rewritten and the pair stored under the placeholder. *)
Fixpoint shieldFrom (i : nat) (text : string) (keywords : list string)
    (placeholderMap : gmap string string) : string * gmap string string :=
  match keywords with
  | [] => (text, placeholderMap)
  | keyword :: rest =>
    let ph := placeholder i in
    shieldFrom (S i) (ReplaceAll text keyword ph) rest (<[ph := keyword]> placeholderMap)
  end.

Definition replaceKeywordsWithPlaceholders (text : string) (keywords : list string)
    : string * gmap string string :=
  shieldFrom 0 text keywords ∅.

(** The loop of [replacePlaceholdersWithKeywords], over the entries of the
    map in the order [entries] in which the [range] visits them. *)
Definition replaceEntries (entries : list (string * string)) (text : string) : string :=
  foldl (λ t e, ReplaceAll t e.1 e.2) text entries.

(** [replacePlaceholdersWithKeywords]. Go leaves the iteration order of a
    map unspecified: the [range] visits the entries of [placeholderMap] in
    the permutation [order] makes of them. *)
Definition replacePlaceholdersWithKeywords (order : list (string * string) → list (string * string))
    (text : string) (placeholderMap : gmap string string) : string :=
  replaceEntries (order (map_to_list placeholderMap)) text.

(** ** The translator call *)

(** A Go [error], kept as the message [%v] prints. *)
Inductive result (A : Type) : Type :=
  | Ok (a : A)
  | Err (msg : string).
Arguments Ok {A} a.
Arguments Err {A} msg.

Record TranslationRequest := { Text : string }.

Record TranslationItem := { item_text : string }.

Record TranslationResponse := { resp_translations : list TranslationItem }.

Record Request := {
  req_method : string;
  req_url : string;
  req_body : string;
  req_headers : list (string * string)
}.

Record HttpResponse := {
  StatusCode : nat;
  (** what [ioutil.ReadAll resp.Body] returns *)
  Body : result string
}.

(** Everything [main.go] takes from outside: the JSON codec, the HTTP
    client and the order in which a [range] visits a map. [client_do] and
    [map_order] take the sequence number of the call, so that two calls
    with the same argument may answer differently. *)
Record World := {
  json_marshal : list TranslationRequest → result string;
  new_request_error : string → string → option string;
  client_do : nat → Request → result HttpResponse;
  json_unmarshal : string → result (list TranslationResponse);
  map_order : nat → list (string * string) → list (string * string);
  map_order_perm : ∀ n l, map_order n l ≡ₚ l
}.

(** [http.NewRequest]: fails when the method or the URL is rejected. *)
Definition NewRequest (W : World) (method url body : string) : result Request :=
  match new_request_error W method url with
  | Some e => Err e
  | None => Ok {| req_method := method; req_url := url; req_body := body; req_headers := [] |}
  end.

(** [req.Header.Add] *)
Definition header_add (k v : string) (req : Request) : Request :=
  {| req_method := req_method req; req_url := req_url req; req_body := req_body req;
     req_headers := req_headers req ++ [(k, v)] |}.

Definition StatusOK : nat := 200.
Definition StatusCreated : nat := 201.
Definition StatusBadRequest : nat := 400.
Definition StatusNotFound : nat := 404.
Definition StatusConflict : nat := 409.
Definition StatusInternalServerError : nat := 500.

(** [translateText]; [n] numbers the call. *)
Definition translateText (W : World) (n : nat)
    (text targetLanguage url subscriptionKey location : string) : result string :=
  let body := [ {| Text := text |} ] in
  match json_marshal W body with
  | Err err => Err ("error marshaling json: " +:+ err)
  | Ok jsonBody =>
    match NewRequest W "POST" (url +:+ "&to=" +:+ targetLanguage) jsonBody with
    | Err err => Err ("error creating request: " +:+ err)
    | Ok req =>
      let req := header_add "Ocp-Apim-Subscription-Key" subscriptionKey req in
      let req := header_add "Content-Type" "application/json" req in
      let req := header_add "Ocp-Apim-Subscription-Region" location req in
      match client_do W n req with
      | Err err => Err ("error making translation request: " +:+ err)
      | Ok resp =>
        match Body resp with
        | Err err => Err ("error reading response body: " +:+ err)
        | Ok respBody =>
          if negb (StatusCode resp =? StatusOK) then
            Err ("non-OK HTTP status: " +:+ sprint_d (StatusCode resp)
                 +:+ ", response: " +:+ respBody)
          else
            match json_unmarshal W respBody with
            | Err err => Err ("error decoding response body: " +:+ err)
            | Ok res =>
              match res with
              | {| resp_translations := t0 :: _ |} :: _ => Ok (item_text t0)
              | _ => Err "no translations found in the response"
              end
            end
        end
      end
    end
  end.

(** ** The event table and the handlers *)

Record EventInfo := {
  Name : string;
  Location : string;
  Details : string;
  LinkNames : gmap string string;
  SponsoredMessage : string;
  Languages : list string;
  Keywords : list string;
  Translations : gmap string string
}.

Definition with_Translations (tr : gmap string string) (e : EventInfo) : EventInfo :=
  {| Name := Name e; Location := Location e; Details := Details e;
     LinkNames := LinkNames e; SponsoredMessage := SponsoredMessage e;
     Languages := Languages e; Keywords := Keywords e; Translations := tr |}.

(** What [c.JSON] is given. *)
Inductive Payload :=
  | ErrorBody (error : string)       (* gin.H{"error": ...} *)
  | MessageBody (message : string)   (* gin.H{"message": ...} *)
  | EventBody (event : EventInfo).

Record Response := { status : nat; payload : Payload }.

(** [strings.Builder.WriteString] *)
Definition WriteString (b s : string) : string := b +:+ s.

(** The text [postEvent] builds in [detailsBuilder]; [links] are the
    entries of [event.LinkNames] as the [range] visits them. *)
Definition composeText (links : list (string * string)) (event : EventInfo) : string :=
  let b := "" in
  let b := WriteString b (Name event +:+ " ") in
  let b := WriteString b ("Location: " +:+ Location event +:+ " ") in
  let b := WriteString b ("Details: " +:+ Details event +:+ " ") in
  let b := foldl (λ b link, WriteString b (link.2 +:+ " ")) b links in
  WriteString b (SponsoredMessage event).

Definition endpoint : string := "https://api.cognitive.microsofttranslator.com".
Definition uri : string := endpoint +:+ "/translate?api-version=3.0".
Definition location : string := "eastus".
Definition key : string := "".

(** One invocation of [translateText] by the handler: text and language. *)
Definition call : Type := string * string.

(** The loop over [event.Languages] of [postEvent], at round [n]:
    [translations] is [event.Translations] so far and [calls] the
    invocations of [translateText] so far. An error leaves the loop, and
    the handler, at once. *)
Fixpoint translateLoop (W : World) (n : nat) (preparedText : string)
    (placeholderMap : gmap string string) (langs : list string)
    (translations : gmap string string) (calls : list call)
    : result (gmap string string) * list call :=
  match langs with
  | [] => (Ok translations, calls)
  | lang :: rest =>
    let calls := calls ++ [(preparedText, lang)] in
    match translateText W n preparedText lang uri key location with
    | Err err => (Err ("Error translating to " +:+ lang +:+ ": " +:+ err), calls)
    | Ok translatedText =>
      let finalText :=
        replacePlaceholdersWithKeywords (map_order W (S n)) translatedText placeholderMap in
      translateLoop W (S n) preparedText placeholderMap rest
        (<[lang := finalText]> translations) calls
    end
  end.

(** [postEvent]: [bind] is what [c.BindJSON(&event)] produced, [events]
    the global table. The result is the response written, the table
    afterwards and the invocations of [translateText]. *)
Definition postEvent (W : World) (bind : result EventInfo) (events : gmap string EventInfo)
    : Response * gmap string EventInfo * list call :=
  match bind with
  | Err err => ({| status := StatusBadRequest; payload := ErrorBody err |}, events, [])
  | Ok event =>
    match events !! Name event with
    | Some _ =>
      ({| status := StatusConflict; payload := MessageBody "Event already exists" |},
       events, [])
    | None =>
      let text := composeText (map_order W 0 (map_to_list (LinkNames event))) event in
      let '(preparedText, placeholderMap) :=
        replaceKeywordsWithPlaceholders text (Keywords event) in
      match translateLoop W 0 preparedText placeholderMap (Languages event) ∅ [] with
      | (Err msg, calls) =>
        ({| status := StatusInternalServerError; payload := ErrorBody msg |}, events, calls)
      | (Ok translations, calls) =>
        let event := with_Translations translations event in
        ({| status := StatusCreated; payload := EventBody event |},
         <[Name event := event]> events, calls)
      end
    end
  end.

(** [c.Query(key)]: the first value of the key in the URL query, the
    empty string when the key is absent. *)
Definition Query (query : gmap string (list string)) (k : string) : string :=
  match query !! k with
  | Some (v :: _) => v
  | _ => ""
  end.

(** [getEvent] *)
Definition getEvent (query : gmap string (list string)) (events : gmap string EventInfo)
    : Response :=
  let eventType := Query query "type" in
  match events !! eventType with
  | Some event => {| status := StatusOK; payload := EventBody event |}
  | None => {| status := StatusNotFound; payload := ErrorBody "Event not found" |}
  end.

(** ** Predicates used in the statements *)

(** The bytes a placeholder [KW<i>PLH] is made of, its first byte apart. *)
Definition tokenByte (c : ascii) : bool :=
  match c with
  | "W" | "P" | "L" | "H"
  | "0" | "1" | "2" | "3" | "4" | "5" | "6" | "7" | "8" | "9" => true
  | _ => false
  end%char.

Definition digitByte (c : ascii) : bool :=
  match c with
  | "0" | "1" | "2" | "3" | "4" | "5" | "6" | "7" | "8" | "9" => true
  | _ => false
  end%char.

(** [u] and [k] agree as far as both go: one begins the other. *)
Fixpoint agree (u k : bytes) : bool :=
  match u, k with
  | a :: u', c :: k' => bool_decide (a = c) && agree u' k'
  | _, _ => true
  end.

(** [k] agrees with some digits followed by [PLH]. *)
Fixpoint tailOfDigits (k : bytes) : bool :=
  match k with
  | [] => true
  | c :: r => if digitByte c then tailOfDigits r else agree (bs "PLH") k
  end.

(** [k] agrees with what follows the [K] of a placeholder, from some
    byte on: with [W<digits>PLH], [<digits>PLH], [LH] or [H]. *)
Definition continuesToken (k : bytes) : bool :=
  match k with
  | [] => true
  | c :: r =>
    if bool_decide (c = "W"%char) then tailOfDigits r
    else tailOfDigits k || agree (bs "LH") k || agree (bs "H") k
  end.

(** [u] agrees with a placeholder from its [K] on: with [KW<digits>PLH]. *)
Definition startsToken (u : bytes) : bool :=
  match u with
  | [] => true
  | c :: r =>
    bool_decide (c = "K"%char)
    && match r with
       | [] => true
       | c' :: r' => bool_decide (c' = "W"%char) && tailOfDigits r'
       end
  end.

(** Some tail of [k] agrees with a placeholder. *)
Fixpoint holdsTokenStart (k : bytes) : bool :=
  match k with
  | [] => false
  | _ :: r => startsToken k || holdsTokenStart r
  end.

(** A keyword that cannot be mistaken for a piece of a placeholder. It
    does not take up a placeholder from the inside: it is not empty, does
    not begin with [H], [LH], [PLH], [<digits>PLH] or [W<digits>PLH], and
    is not the beginning of one of these ([L], [P], [PL], [W], digits and
    the like). And no placeholder can begin inside it: a [K] in it is
    followed, inside it, by bytes that depart from [W<digits>PLH]. *)
Definition plainKeyword (k : string) : bool :=
  negb (continuesToken (bs k)) && negb (holdsTokenStart (bs k)).

(** A [range] order: some permutation of the entries it is given. *)
Definition isRangeOrder (order : list (string * string) → list (string * string)) : Prop :=
  ∀ l, order l ≡ₚ l.

(** [strings.HasPrefix] on [string] values. *)
Definition HasPrefix (s p : string) : bool := GoStrings.hasPrefix (bs s) (bs p).

(** What [postEvent] hands to the translator for [event]: the composed
    text after the first pass, and the map of that pass. *)
Definition preparedOf (W : World) (event : EventInfo) : string * gmap string string :=
  replaceKeywordsWithPlaceholders
    (composeText (map_order W 0 (map_to_list (LinkNames event))) event) (Keywords event).

(** A world whose HTTP client answers call [n] with [script n], whose
    decoder is [decode], and which visits maps in their stored order. *)
Definition scriptedWorld (script : nat → result HttpResponse)
    (decode : string → result (list TranslationResponse)) : World :=
  {| json_marshal := λ b, Ok (foldl (λ a r, a +:+ Text r) "" b);
     new_request_error := λ _ _, None;
     client_do := λ n _, script n;
     json_unmarshal := decode;
     map_order := λ _ l, l;
     map_order_perm := λ _ l, reflexivity l |}.

(** A decoder that takes the body for the one translated text. *)
Definition plainDecode (body : string) : result (list TranslationResponse) :=
  Ok [ {| resp_translations := [ {| item_text := body |} ] |} ].

(** The event of the composition example. *)
Definition festEvent (languages keywords : list string) : EventInfo :=
  {| Name := "Fest"; Location := "Lyon"; Details := "Fun"; LinkNames := ∅;
     SponsoredMessage := ""; Languages := languages; Keywords := keywords;
     Translations := ∅ |}.

(** A token, on byte sequences: a [K] followed by placeholder bytes, as
    every [placeholder i] is. *)
Definition isToken (p : bytes) : Prop :=
  ∃ b, p = "K"%char :: b ∧ Forall (λ c, tokenByte c = true) b.

(** No instance of the token [p] begins inside [k]. *)
Definition clearInside (p k : bytes) : Prop :=
  ∀ u, u ≠ [] → u `suffix_of` k → agree p u = false.

(** [k] agrees with no piece of the token [p] that begins behind the
    first byte of [p]. *)
Definition clearOf (p k : bytes) : Prop :=
  ∀ u, u ≠ [] → u `suffix_of` tail p → agree u k = false.

(** A decimal digit. *)
Definition isDigit (c : ascii) : Prop := digitByte c = true.

(** The pairs [replaceKeywordsWithPlaceholders] stores for [keywords],
    numbered from [i] on, in the order it stores them. *)
Fixpoint entriesFrom (i : nat) (keywords : list string) : list (string * string) :=
  match keywords with
  | [] => []
  | keyword :: rest => (placeholder i, keyword) :: entriesFrom (S i) rest
  end.

(** Entries with distinct placeholders as keys and plain keywords as
    values. *)
Definition tokenEntries (l : list (string * string)) : Prop :=
  NoDup l.*1 ∧ Forall (λ e, (∃ i, e.1 = placeholder i) ∧ plainKeyword e.2 = true) l.

(** The languages [fr] and [de], the translator answering the first call
    and failing on the second. *)
Definition frOkDeDown : World :=
  scriptedWorld
    (λ n, match n with
          | 0 => Ok {| StatusCode := StatusOK; Body := Ok "KW0PLH Lieu: KW1PLH Détails: Fun " |}
          | _ => Err "connection refused"
          end)
    plainDecode.

(** [init]: the table of events starts empty. *)
Definition init_events : gmap string EventInfo := ∅.

(** What the handlers keep true of the table: an event is stored under
    its own name, with one translation for each of its languages and for
    nothing else. *)
Definition tableInv (events : gmap string EventInfo) : Prop :=
  ∀ name e, events !! name = Some e →
    Name e = name ∧ dom (Translations e) = list_to_set (Languages e).

(** A world whose translator answers with the text it was sent, and which
    visits maps in the reverse of their stored order. *)
Definition echoWorld : World :=
  {| json_marshal := λ b, Ok (foldl (λ a r, a +:+ Text r) "" b);
     new_request_error := λ _ _, None;
     client_do := λ _ req, Ok {| StatusCode := StatusOK; Body := Ok (req_body req) |};
     json_unmarshal := plainDecode;
     map_order := λ _ l, reverse l;
     map_order_perm := λ _ l, reverse_Permutation l |}.

(** The table after a run of [postEvent] requests, each with its world
    and the event [c.BindJSON] decoded (or its error). *)
Definition serve (events : gmap string EventInfo)
    (requests : list (World * result EventInfo)) : gmap string EventInfo :=
  foldl (λ ev r, (postEvent r.1 r.2 ev).1.2) events requests.

(** The request [translateText] sends for [jsonBody]. *)
Definition translateRequest (url targetLanguage subscriptionKey loc jsonBody : string)
    : Request :=
  {| req_method := "POST";
     req_url := url +:+ "&to=" +:+ targetLanguage;
     req_body := jsonBody;
     req_headers := [("Ocp-Apim-Subscription-Key", subscriptionKey);
                     ("Content-Type", "application/json");
                     ("Ocp-Apim-Subscription-Region", loc)] |}.

(** An instance of [k] at byte [a] of [s] and an instance of [p] at byte
    [b] that have a byte in common. *)
Definition touchesAt (s k p : bytes) (a b : nat) : bool :=
  GoStrings.hasPrefix (drop a s) k && GoStrings.hasPrefix (drop b s) p
  && (b <? a + length k) && (a <? b + length p).

(** Some instance of the keyword [k] in [s] overlaps some instance of the
    token [p]: it crosses a boundary of the token, lies inside it or
    holds it. *)
Definition touches (s k p : string) : bool :=
  existsb (λ a, existsb (λ b, touchesAt (bs s) (bs k) (bs p) a b)
                  (seq 0 (S (length (bs s)))))
    (seq 0 (S (length (bs s)))).

(** In some round of [replaceKeywordsWithPlaceholders], from index [i]
    on, an instance of the keyword of the round overlaps a token of an
    earlier round. *)
Fixpoint crossesFrom (i : nat) (text : string) (keywords : list string) : bool :=
  match keywords with
  | [] => false
  | keyword :: rest =>
    existsb (λ l, touches text keyword (placeholder l)) (seq 0 i)
    || crossesFrom (S i) (ReplaceAll text keyword (placeholder i)) rest
  end.

(** A text cut into the bytes of the original and the tokens written for
    keywords. *)
Inductive piece :=
  | Raw (c : ascii)
  | Tok (i : nat).

Definition flatPiece (x : piece) : bytes :=
  match x with
  | Raw c => [c]
  | Tok i => bs (placeholder i)
  end.

(** The text as it stands. *)
Fixpoint flat (ps : list piece) : bytes :=
  match ps with
  | [] => []
  | x :: r => flatPiece x ++ flat r
  end.

Definition keywordAt (keywords : list string) (i : nat) : string :=
  default "" (keywords !! i).

(** The text with every token replaced by its keyword. *)
Fixpoint expText (keywords : list string) (ps : list piece) : bytes :=
  match ps with
  | [] => []
  | Raw c :: r => c :: expText keywords r
  | Tok i :: r => bs (keywordAt keywords i) ++ expText keywords r
  end.

(** The pieces with the tokens of index [i] replaced by the bytes of
    their keyword. *)
Fixpoint expandIdx (keywords : list string) (i : nat) (ps : list piece) : list piece :=
  match ps with
  | [] => []
  | Raw c :: r => Raw c :: expandIdx keywords i r
  | Tok l :: r =>
    (if decide (l = i) then Raw <$> bs (keywordAt keywords l) else [Tok l])
    ++ expandIdx keywords i r
  end.

(** No instance of [k] in the text overlaps one of its tokens. *)
Definition NoTouch (k : bytes) (ps : list piece) : Prop :=
  ∀ a pre l post, ps = pre ++ Tok l :: post →
    GoStrings.hasPrefix (drop a (flat ps)) k = true →
    a + length k ≤ length (flat pre)
    ∨ length (flat pre) + length (bs (placeholder l)) ≤ a.

(** Settles a [Forall] over an explicit list by evaluation. *)
Ltac forall_by_compute :=
  repeat first [ apply Forall_nil_2 | apply Forall_cons_2; [vm_compute; reflexivity|] ].

(** ** [strings.ReplaceAll] as a left-to-right scan *)

Section replaceAll_scan.
Import GoStrings.

Lemma hasPrefix_prefix (s p : bytes) : hasPrefix s p = true ↔ p `prefix_of` s.
Proof.
  revert s. induction p as [|c p IH]; intros [|d s]; simpl.
  - split; [intros _; apply prefix_nil | done].
  - split; [intros _; apply prefix_nil | done].
  - split; [done | intros H; by apply prefix_nil_not in H].
  - rewrite andb_true_iff, bool_decide_eq_true, IH. split.
    + intros [-> H]. by apply prefix_cons.
    + intros H. split; [by apply prefix_cons_inv_1 in H | by apply prefix_cons_inv_2 in H].
Qed.

Lemma hasPrefix_app (p r : bytes) : hasPrefix (p ++ r) p = true.
Proof. apply hasPrefix_prefix. by exists r. Qed.

Lemma hasPrefix_false (s p : bytes) : hasPrefix s p = false ↔ ¬ p `prefix_of` s.
Proof. rewrite <- hasPrefix_prefix. by destruct (hasPrefix s p). Qed.

Lemma index_nil (sub : bytes) : sub ≠ [] → index [] sub = None.
Proof. by destruct sub. Qed.

Lemma index_here (s sub : bytes) : hasPrefix s sub = true → index s sub = Some 0.
Proof. intros H. destruct s; simpl in *; by rewrite H. Qed.

Lemma index_later (c : ascii) (s sub : bytes) :
  hasPrefix (c :: s) sub = false → index (c :: s) sub = S <$> index s sub.
Proof. intros H. change (index (c :: s) sub) with
    (if hasPrefix (c :: s) sub then Some 0 else S <$> index s sub). by rewrite H. Qed.

(** [index] finds an instance: the text splits around it. *)
Lemma index_Some_split (s sub : bytes) (j : nat) :
  index s sub = Some j →
  s = take j s ++ sub ++ drop (j + length sub) s ∧ j + length sub ≤ length s.
Proof.
  revert j. induction s as [|c s IH]; intros j.
  - destruct sub; simpl; [|done]. intros [= <-]. done.
  - destruct (hasPrefix (c :: s) sub) eqn:Hp.
    + rewrite (index_here _ _ Hp). intros [= <-].
      apply hasPrefix_prefix in Hp as [r Hr]. rewrite Hr, Nat.add_0_l.
      rewrite take_0, drop_app_length, length_app. simpl. split; [done | lia].
    + rewrite (index_later _ _ _ Hp). destruct (index s sub) as [i|]; [|done].
      intros [= <-]. destruct (IH i eq_refl) as [E L]. simpl. split; [by f_equal | lia].
Qed.

Lemma countLoop_fuel (sub : bytes) (f1 f2 : nat) (s : bytes) :
  sub ≠ [] → length s ≤ f1 → length s ≤ f2 → countLoop f1 s sub = countLoop f2 s sub.
Proof.
  intros Hsub. revert f2 s. induction f1 as [|f1 IH]; intros [|f2] s H1 H2; simpl; try done.
  - destruct s; [|simpl in *; lia]. by rewrite index_nil.
  - destruct s; [|simpl in *; lia]. by rewrite index_nil.
  - destruct (index s sub) as [i|] eqn:Hi; [|done]. f_equal.
    apply index_Some_split in Hi as [_ Hi].
    assert (0 < length sub) by (destruct sub; [done | simpl; lia]).
    apply IH; rewrite length_drop; lia.
Qed.

Lemma replaceLoop_first (n : nat) (b1 b2 : bool) (rest old new : bytes) :
  old ≠ [] → replaceLoop n b1 rest old new = replaceLoop n b2 rest old new.
Proof. intros H. destruct n; [done|]. simpl. by destruct old. Qed.

Lemma replaceLoop_S (n : nat) (b : bool) (rest old new : bytes) (j : nat) :
  old ≠ [] → index rest old = Some j →
  replaceLoop (S n) b rest old new =
    take j rest ++ new ++ replaceLoop n false (drop (j + length old) rest) old new.
Proof. intros Hold Hj. simpl. destruct old; [done|]. by rewrite Hj. Qed.

(** One round of the loop of [strings.Replace]. *)
Lemma replaceAll_unfold (s old new : bytes) :
  old ≠ [] →
  replaceAll s old new =
    match index s old with
    | None => s
    | Some j => take j s ++ new ++ replaceAll (drop (j + length old) s) old new
    end.
Proof.
  intros Hold. unfold replaceAll. destruct (decide (old = new)) as [<-|Hne].
  { destruct (index s old) as [j|] eqn:Hj; [|done]. by apply index_Some_split in Hj as [? _]. }
  assert (Hc : ∀ t, count t old = countLoop (length t) t old) by (by destruct old).
  rewrite !Hc.
  destruct s as [|c s]; [by rewrite index_nil|].
  cbn [length countLoop].
  destruct (index (c :: s) old) as [j|] eqn:Hj; [|done].
  pose proof (index_Some_split _ _ _ Hj) as [_ Hlen].
  rewrite (replaceLoop_S _ _ _ _ _ j Hold Hj).
  set (s' := drop (j + length old) (c :: s)).
  assert (Hs' : length s' ≤ length s).
  { subst s'. rewrite length_drop. destruct old; [done|]. simpl in *. lia. }
  rewrite (countLoop_fuel old (length s) (length s') s') by done.
  do 2 f_equal. rewrite Hc. destruct (countLoop (length s') s' old) as [|m]; [done|].
  by apply replaceLoop_first.
Qed.

Context (old new : bytes) (Hold : old ≠ []).

Lemma replaceAll_nil : replaceAll [] old new = [].
Proof using Hold. by rewrite replaceAll_unfold, index_nil. Qed.

Lemma replaceAll_none (s : bytes) : index s old = None → replaceAll s old new = s.
Proof using Hold. intros H. by rewrite replaceAll_unfold, H. Qed.

(** At an instance of [old]: emit [new], go on behind the instance. *)
Lemma replaceAll_match (s : bytes) :
  replaceAll (old ++ s) old new = new ++ replaceAll s old new.
Proof using Hold.
  rewrite (replaceAll_unfold (old ++ s)) by done.
  rewrite (index_here _ _ (hasPrefix_app old s)).
  by rewrite Nat.add_0_l, take_0, drop_app_length.
Qed.

(** Elsewhere: copy one byte. *)
Lemma replaceAll_skip (c : ascii) (s : bytes) :
  hasPrefix (c :: s) old = false →
  replaceAll (c :: s) old new = c :: replaceAll s old new.
Proof using Hold.
  intros H. rewrite (replaceAll_unfold (c :: s)), (replaceAll_unfold s) by done.
  rewrite (index_later _ _ _ H). destruct (index s old) as [j|]; simpl; done.
Qed.

(** The three cases of the scan. *)
Lemma scan_cases (s : bytes) :
  s = [] ∨ (∃ r, s = old ++ r) ∨ (∃ c r, s = c :: r ∧ hasPrefix s old = false).
Proof.
  destruct (hasPrefix s old) eqn:H.
  - right; left. by apply hasPrefix_prefix in H.
  - destruct s as [|c r]; [by left|]. right; right. by exists c, r.
Qed.

(** Induction along the scan. *)
Lemma scan_ind (P : bytes → Prop) :
  P [] →
  (∀ r, P r → P (old ++ r)) →
  (∀ c r, hasPrefix (c :: r) old = false → P r → P (c :: r)) →
  ∀ s, P s.
Proof using Hold.
  intros H0 Hm Hs s. remember (length s) as n eqn:Hn.
  revert s Hn. induction (lt_wf n) as [n _ IH]. intros s ->.
  destruct (scan_cases s) as [->|[[r ->]|(c & r & -> & Hp)]]; [done|..].
  - apply Hm. eapply IH; [|done]. rewrite length_app.
    destruct old; [done | simpl; lia].
  - apply Hs; [done|]. eapply IH; [|done]. simpl; lia.
Qed.

(** Bytes that cannot begin an instance are copied. *)
Lemma replaceAll_skip_all (u s : bytes) :
  Forall (λ c, head old ≠ Some c) u → replaceAll (u ++ s) old new = u ++ replaceAll s old new.
Proof using Hold.
  induction 1 as [|c u Hc _ IH]; [done|]. simpl.
  rewrite replaceAll_skip, IH; [done|].
  apply hasPrefix_false. intros Hp. destruct old as [|o old']; [done|].
  apply prefix_cons_inv_1 in Hp. simpl in Hc. congruence.
Qed.

End replaceAll_scan.

(** ** Replacing tokens and keywords *)

Section tokens.
Import GoStrings.

Lemma index_None_cons (c : ascii) (s p : bytes) :
  index (c :: s) p = None ↔ hasPrefix (c :: s) p = false ∧ index s p = None.
Proof.
  destruct (hasPrefix (c :: s) p) eqn:Hp.
  - rewrite (index_here _ _ Hp). split; [done | by intros [? _]].
  - rewrite (index_later _ _ _ Hp). destruct (index s p); simpl; split; try done.
    by intros [_ ?].
Qed.

Lemma index_None_app_r (u s p : bytes) : index (u ++ s) p = None → index s p = None.
Proof. induction u as [|c u IH]; [done|]. simpl. intros H%index_None_cons. apply IH, H. Qed.


Lemma isToken_ne (p : bytes) : isToken p → p ≠ [].
Proof. by intros (b & -> & _). Qed.

Lemma isToken_head (p : bytes) : isToken p → head p = Some "K"%char.
Proof. by intros (b & -> & _). Qed.

(** A token is an instance of itself only at its first byte. *)
Lemma isToken_body (p q : bytes) :
  isToken p → isToken q → ∃ b, p = "K"%char :: b ∧ Forall (λ c, head q ≠ Some c) b.
Proof.
  intros (b & -> & Hb) Hq. exists b. split; [done|]. rewrite (isToken_head _ Hq).
  eapply Forall_impl; [exact Hb|]. simpl. intros c Hc [= <-]. done.
Qed.


Lemma agree_prefix (u k : bytes) : u `prefix_of` k ∨ k `prefix_of` u → agree u k = true.
Proof.
  revert k. induction u as [|a u IH]; intros [|c k]; simpl; try done.
  intros [H|H]; rewrite (prefix_cons_inv_1 _ _ _ _ H), bool_decide_eq_true_2 by done;
    apply prefix_cons_inv_2 in H; apply IH; auto.
Qed.

(** A keyword inside which no instance of [old] begins is copied. *)
Lemma replaceAll_skip_clear (k R old new : bytes) :
  old ≠ [] → clearInside old k →
  replaceAll (k ++ R) old new = k ++ replaceAll R old new.
Proof.
  intros Hold. induction k as [|c k IH]; intros Hc; [done|]. simpl.
  rewrite replaceAll_skip, IH; try done.
  - intros u Hu Hs. apply Hc; [done|]. by apply suffix_cons_r.
  - apply hasPrefix_false. intros Hp.
    assert (agree old (c :: k) = true) as E.
    { apply agree_prefix. eapply prefix_weak_total; [exact Hp|].
      by apply (prefix_app_r (c :: k) (c :: k) R). }
    rewrite Hc in E; done.
Qed.

(** If a piece [b] of a token begins the text after a replacement that
    writes a keyword which agrees with no tail of [b], then [b] began
    the text before. *)
Lemma replaceAll_tail_back (b s old new : bytes) :
  old ≠ [] →
  (∀ u, u ≠ [] → u `suffix_of` b → agree u new = false) →
  b `prefix_of` replaceAll s old new → b `prefix_of` s.
Proof.
  intros Hold. revert s. induction b as [|a b IH]; intros s Hb; [intros; apply prefix_nil|].
  destruct (scan_cases old s) as [->|[[r ->]|(c & r & -> & Hp)]].
  - by rewrite replaceAll_nil.
  - rewrite replaceAll_match by done. intros H.
    assert (agree (a :: b) new = true) as E.
    { apply agree_prefix. eapply prefix_weak_total; [exact H|]. by apply prefix_app_r. }
    rewrite Hb in E; done.
  - rewrite replaceAll_skip by done. intros H.
    rewrite (prefix_cons_inv_1 _ _ _ _ H). apply prefix_cons, IH.
    + intros u Hu Hs. apply Hb; [done|]. by apply suffix_cons_r.
    + by apply prefix_cons_inv_2 in H.
Qed.



Section two_tokens.
Context (p1 k1 p2 k2 : bytes).
Context (Hp1 : isToken p1) (Hp2 : isToken p2).
Context (H12 : ∀ r, ¬ p1 `prefix_of` p2 ++ r) (H21 : ∀ r, ¬ p2 `prefix_of` p1 ++ r).
Context (C21 : clearOf p2 k1) (I21 : clearInside p2 k1).

Lemma step_own (T : bytes) :
  replaceAll (replaceAll (p1 ++ T) p1 k1) p2 k2
  = k1 ++ replaceAll (replaceAll T p1 k1) p2 k2.
Proof using Hp1 Hp2 I21.
  rewrite replaceAll_match by by apply isToken_ne.
  apply replaceAll_skip_clear; [by apply isToken_ne | done].
Qed.

Lemma step_other (T : bytes) :
  replaceAll (replaceAll (p1 ++ T) p2 k2) p1 k1
  = k1 ++ replaceAll (replaceAll T p2 k2) p1 k1.
Proof using Hp1 Hp2 H21.
  pose proof (isToken_ne _ Hp1). pose proof (isToken_ne _ Hp2).
  rewrite <- replaceAll_match by done. f_equal.
  destruct (isToken_body p1 p2 Hp1 Hp2) as (b & Eq & Hb). rewrite Eq. simpl.
  rewrite replaceAll_skip, replaceAll_skip_all; try done.
  apply hasPrefix_false. intros Hp. apply (H21 T). by rewrite Eq.
Qed.

Lemma step_none (c : ascii) (T : bytes) :
  hasPrefix (c :: T) p1 = false → hasPrefix (c :: T) p2 = false →
  replaceAll (replaceAll (c :: T) p1 k1) p2 k2
  = c :: replaceAll (replaceAll T p1 k1) p2 k2.
Proof using Hp1 Hp2 C21.
  clear H12 H21 I21. intros N1 N2. pose proof (isToken_ne _ Hp1). pose proof (isToken_ne _ Hp2).
  rewrite replaceAll_skip by done. rewrite replaceAll_skip; try done.
  apply hasPrefix_false. intros H'. apply hasPrefix_false in N2. apply N2.
  destruct Hp2 as (b & -> & _).
  rewrite (prefix_cons_inv_1 _ _ _ _ H'). apply prefix_cons.
  apply prefix_cons_inv_2 in H'. by eapply (replaceAll_tail_back b T p1 k1).
Qed.
End two_tokens.

(** Two replacements of distinct tokens by plain keywords commute. *)
Lemma replaceAll_comm (p1 k1 p2 k2 T : bytes) :
  isToken p1 → isToken p2 →
  (∀ r, ¬ p1 `prefix_of` p2 ++ r) → (∀ r, ¬ p2 `prefix_of` p1 ++ r) →
  clearOf p2 k1 → clearOf p1 k2 → clearInside p2 k1 → clearInside p1 k2 →
  replaceAll (replaceAll T p1 k1) p2 k2 = replaceAll (replaceAll T p2 k2) p1 k1.
Proof.
  intros Hp1 Hp2 H12 H21 C21 C12 I21 I12.
  pose proof (isToken_ne _ Hp1). pose proof (isToken_ne _ Hp2).
  remember (length T) as n eqn:Hn. revert T Hn.
  induction (lt_wf n) as [n _ IH]. intros T ->.
  destruct (scan_cases p1 T) as [->|[[r ->]|(c & r & -> & N1)]].
  - by rewrite !replaceAll_nil.
  - rewrite step_own, step_other by done. f_equal.
    eapply IH; [|done]. rewrite length_app. destruct p1; [done | simpl; lia].
  - destruct (scan_cases p2 (c :: r)) as [?|[[r' E]|(c' & r' & E & N2)]]; [done|..].
    + rewrite E. rewrite (step_other p2 k2 p1 k1), (step_own p2 k2 p1 k1) by done. f_equal.
      eapply IH; [|done]. rewrite E, length_app.
      destruct p2; [done | simpl; lia].
    + rewrite (step_none p1 k1 p2 k2), (step_none p2 k2 p1 k1) by done. f_equal.
      eapply IH; [|done]. simpl; lia.
Qed.
End tokens.

(** ** Placeholders are tokens *)

Section placeholders.
Import GoStrings.

Lemma bs_str (l : bytes) : bs (str l) = l.
Proof. apply list_ascii_of_string_of_list_ascii. Qed.

Lemma str_bs (s : string) : str (bs s) = s.
Proof. apply string_of_list_ascii_of_string. Qed.

Lemma bs_inj (s1 s2 : string) : bs s1 = bs s2 → s1 = s2.
Proof. intros H. by rewrite <- (str_bs s1), <- (str_bs s2), H. Qed.

Lemma bs_app (s1 s2 : string) : bs (s1 +:+ s2) = bs s1 ++ bs s2.
Proof. induction s1 as [|c s1 IH]; [done|]. unfold bs in *. simpl. by rewrite IH. Qed.

Lemma bs_nil (s : string) : bs s = [] ↔ s = "".
Proof. by destruct s. Qed.

Lemma bs_ReplaceAll (s old new : string) :
  bs (ReplaceAll s old new) = replaceAll (bs s) (bs old) (bs new).
Proof. apply bs_str. Qed.

Lemma digits_uint (d : uint) : Forall isDigit (bs (NilEmpty.string_of_uint d)).
Proof. induction d; simpl; constructor; try done. Qed.

Lemma digitByte_tokenByte (c : ascii) : digitByte c = true → tokenByte c = true.
Proof. by destruct c as [[] [] [] [] [] [] [] []]. Qed.

Lemma to_uint_nonnil (n : nat) : Nat.to_uint n ≠ Nil.
Proof.
  intros H. pose proof (Unsigned.to_of (Nat.to_uint n)) as E.
  rewrite Unsigned.of_to, H in E. discriminate E.
Qed.

Lemma sprint_d_digits (n : nat) : Forall isDigit (bs (sprint_d n)).
Proof.
  unfold sprint_d, NilZero.string_of_uint.
  pose proof (to_uint_nonnil n). pose proof (digits_uint (Nat.to_uint n)).
  by destruct (Nat.to_uint n).
Qed.

Lemma sprint_d_inj (n m : nat) : sprint_d n = sprint_d m → n = m.
Proof.
  intros H. apply Unsigned.to_uint_inj.
  pose proof (NilZero.usu _ (to_uint_nonnil n)) as En.
  pose proof (NilZero.usu _ (to_uint_nonnil m)) as Em.
  unfold sprint_d in H. rewrite H in En. congruence.
Qed.

Lemma bs_placeholder (i : nat) :
  bs (placeholder i) = "K"%char :: "W"%char :: bs (sprint_d i) ++ bs "PLH".
Proof. unfold placeholder. by rewrite !bs_app. Qed.

Lemma placeholder_isToken (i : nat) : isToken (bs (placeholder i)).
Proof.
  eexists. split; [apply bs_placeholder|].
  constructor; [done|]. apply Forall_app. split.
  - eapply Forall_impl; [apply sprint_d_digits|]. apply digitByte_tokenByte.
  - by repeat constructor.
Qed.

(** Runs of digits that are both followed by a [P] are equal. *)
Lemma digits_delimited (u v x y : bytes) :
  Forall isDigit u → Forall isDigit v →
  u ++ "P"%char :: x `prefix_of` v ++ "P"%char :: y → u = v.
Proof.
  intros Hu. revert v. induction Hu as [|a u Ha _ IH]; intros v Hv; simpl.
  - destruct Hv as [|d v Hd _]; [done|]. simpl. intros H%prefix_cons_inv_1.
    by subst d.
  - destruct Hv as [|d v Hd Hv]; simpl.
    + intros H%prefix_cons_inv_1. by subst a.
    + intros H. rewrite (prefix_cons_inv_1 _ _ _ _ H). f_equal.
      apply IH; [done|]. by apply prefix_cons_inv_2 in H.
Qed.

(** No placeholder begins another one. *)
Lemma placeholder_prefix_free (i j : nat) (r : bytes) :
  bs (placeholder i) `prefix_of` bs (placeholder j) ++ r → i = j.
Proof.
  rewrite !bs_placeholder. simpl. intros H.
  do 2 apply prefix_cons_inv_2 in H. rewrite <- app_assoc in H.
  apply sprint_d_inj, bs_inj.
  eapply (digits_delimited _ _ (bs "LH") (bs "LH" ++ r)); [apply sprint_d_digits..|].
  exact H.
Qed.

Lemma placeholder_inj (i j : nat) : placeholder i = placeholder j → i = j.
Proof.
  intros H. apply (placeholder_prefix_free i j []). rewrite H, app_nil_r. done.
Qed.

Lemma plainKeyword_ne (k : string) : plainKeyword k = true → k ≠ "".
Proof. by intros H ->. Qed.

Lemma isDigit_digitByte (c : ascii) : isDigit c → digitByte c = true.
Proof. done. Qed.

Lemma agree_tailOfDigits (ds k : bytes) :
  Forall isDigit ds → agree (ds ++ bs "PLH") k = true → tailOfDigits k = true.
Proof.
  intros Hd. revert k. induction Hd as [|d ds Hd _ IH]; intros [|c k]; try done.
  - intros H. change (agree ([] ++ bs "PLH") (c :: k)) with
      (bool_decide ("P"%char = c) && agree (bs "LH") k) in H.
    apply andb_true_iff in H as [<-%bool_decide_eq_true H]. exact H.
  - simpl. intros H. apply andb_true_iff in H as [<-%bool_decide_eq_true H].
    rewrite (isDigit_digitByte _ Hd). by apply IH.
Qed.

Lemma tailOfDigits_continuesToken (k : bytes) :
  tailOfDigits k = true → continuesToken k = true.
Proof.
  destruct k as [|c k]; [done|]. intros H. unfold continuesToken.
  case_bool_decide as Hc; [|by rewrite H]. subst c. done.
Qed.

(** A piece of a placeholder behind its [K]. *)
Lemma placeholder_tails (i : nat) (u : bytes) :
  u ≠ [] → u `suffix_of` tail (bs (placeholder i)) →
  u = tail (bs (placeholder i))
  ∨ (∃ ds, Forall isDigit ds ∧ u = ds ++ bs "PLH")
  ∨ u = bs "LH" ∨ u = bs "H".
Proof.
  rewrite bs_placeholder. simpl. intros Hu Hs.
  destruct u as [|a u]; [done|]. apply suffix_cons_inv in Hs as [->|Hs]; [by left|].
  right. pose proof (sprint_d_digits i) as Hd. revert Hd Hs.
  generalize (bs (sprint_d i)). intros ds Hd. induction Hd as [|d ds Hd Hds IH]; simpl.
  - intros Hs. apply suffix_cons_inv in Hs as [->|Hs]; [left; by exists []|].
    right. apply suffix_cons_inv in Hs as [->|Hs]; [by left|].
    right. apply suffix_cons_inv in Hs as [->|Hs]; [done|].
    by apply suffix_cons_nil_inv in Hs.
  - intros Hs. apply suffix_cons_inv in Hs as [->|Hs]; [|by apply IH].
    left. exists (d :: ds). split; [by constructor | done].
Qed.

(** A plain keyword agrees with no piece of a placeholder behind its
    [K]. *)
Lemma plainKeyword_clearOf (k : string) (i : nat) :
  plainKeyword k = true → clearOf (bs (placeholder i)) (bs k).
Proof.
  unfold plainKeyword. rewrite andb_true_iff, negb_true_iff. intros [Hc _] u Hu Hs.
  destruct (agree u (bs k)) eqn:Ha; [|done]. rewrite <- Hc. symmetry.
  destruct (placeholder_tails i u Hu Hs) as [->|[(ds & Hd & ->)|[->| ->]]].
  - rewrite bs_placeholder in Ha. simpl in Ha.
    destruct (bs k) as [|c r]; [done|]. simpl in Ha.
    apply andb_true_iff in Ha as [<-%bool_decide_eq_true Ha]. simpl.
    eapply agree_tailOfDigits; [apply sprint_d_digits | exact Ha].
  - apply tailOfDigits_continuesToken. by eapply agree_tailOfDigits.
  - destruct (bs k) as [|c r]; [done|]. unfold continuesToken.
    pose proof Ha as Ha'. simpl in Ha'.
    apply andb_true_iff in Ha' as [<-%bool_decide_eq_true _].
    rewrite bool_decide_eq_false_2 by done. rewrite Ha. by rewrite orb_true_r.
  - destruct (bs k) as [|c r]; [done|]. unfold continuesToken.
    pose proof Ha as Ha'. simpl in Ha'.
    apply andb_true_iff in Ha' as [<-%bool_decide_eq_true _].
    rewrite bool_decide_eq_false_2 by done. rewrite Ha. by rewrite orb_true_r.
Qed.

Lemma agree_startsToken (i : nat) (u : bytes) :
  agree (bs (placeholder i)) u = true → startsToken u = true.
Proof.
  rewrite bs_placeholder. destruct u as [|c [|c' r]]; simpl; try done.
  - intros H. apply andb_true_iff in H as [<-%bool_decide_eq_true _]. done.
  - intros H. apply andb_true_iff in H as [<-%bool_decide_eq_true H].
    apply andb_true_iff in H as [<-%bool_decide_eq_true H].
    rewrite !bool_decide_eq_true_2 by done. simpl.
    eapply agree_tailOfDigits; [apply sprint_d_digits | exact H].
Qed.

(** No placeholder begins inside a plain keyword. *)
Lemma plainKeyword_clearInside (k : string) (i : nat) :
  plainKeyword k = true → clearInside (bs (placeholder i)) (bs k).
Proof.
  unfold plainKeyword. rewrite andb_true_iff, !negb_true_iff. intros [_ Hc].
  induction (bs k) as [|c r IH]; intros u Hu Hs.
  - by apply suffix_nil_inv in Hs.
  - change (holdsTokenStart (c :: r)) with (startsToken (c :: r) || holdsTokenStart r) in Hc.
    apply orb_false_iff in Hc as [Hc1 Hc2].
    destruct u as [|a u]; [done|]. apply suffix_cons_inv in Hs as [->|Hs].
    + destruct (agree (bs (placeholder i)) (c :: r)) eqn:E; [|done].
      apply agree_startsToken in E. congruence.
    + by apply IH.
Qed.



Lemma ReplaceAll_comm (T k1 k2 : string) (i j : nat) :
  i ≠ j → plainKeyword k1 = true → plainKeyword k2 = true →
  ReplaceAll (ReplaceAll T (placeholder i) k1) (placeholder j) k2
  = ReplaceAll (ReplaceAll T (placeholder j) k2) (placeholder i) k1.
Proof.
  intros Hij H1 H2. apply bs_inj. rewrite !bs_ReplaceAll.
  apply replaceAll_comm; try apply placeholder_isToken;
    try (by apply plainKeyword_clearInside); try (by apply plainKeyword_clearOf).
  - intros r H. by apply placeholder_prefix_free in H.
  - intros r H. apply placeholder_prefix_free in H. by subst.
Qed.
End placeholders.

(** ** The two passes over a keyword list *)

Section passes.

Lemma entriesFrom_keys (i : nat) (kws : list string) :
  (entriesFrom i kws).*1 = placeholder <$> seq i (length kws).
Proof. revert i. induction kws as [|k kws IH]; intros i; simpl; [done|]. by rewrite IH. Qed.

Lemma entriesFrom_lookup (i j : nat) (kws : list string) :
  entriesFrom i kws !! j = (λ k, (placeholder (i + j), k)) <$> kws !! j.
Proof.
  revert i j. induction kws as [|k kws IH]; intros i [|j]; simpl; try done.
  - by rewrite Nat.add_0_r.
  - rewrite IH. by replace (S i + j) with (i + S j) by lia.
Qed.

Lemma entriesFrom_NoDup (i : nat) (kws : list string) : NoDup (entriesFrom i kws).*1.
Proof.
  rewrite entriesFrom_keys. apply NoDup_fmap_2; [|apply NoDup_seq].
  intros a b. apply placeholder_inj.
Qed.

Lemma entriesFrom_tokenEntries (i : nat) (kws : list string) :
  Forall (λ k, plainKeyword k = true) kws → tokenEntries (entriesFrom i kws).
Proof.
  intros H. split; [apply entriesFrom_NoDup|].
  revert i. induction H as [|k kws Hk _ IH]; intros i; simpl; constructor; eauto.
Qed.

(** The text after the first pass: one [ReplaceAll] per keyword, in the
    order of the list. *)
Lemma shieldFrom_text (i : nat) (t : string) (kws : list string) (m : gmap string string) :
  (shieldFrom i t kws m).1 = foldl (λ t e, ReplaceAll t e.2 e.1) t (entriesFrom i kws).
Proof. revert i t m. induction kws as [|k kws IH]; intros i t m; simpl; [done|]. apply IH. Qed.

(** The map after the first pass. *)
Lemma shieldFrom_map (i : nat) (t : string) (kws : list string) (m : gmap string string) :
  (shieldFrom i t kws m).2 = list_to_map (reverse (entriesFrom i kws)) ∪ m.
Proof.
  revert i t m. induction kws as [|k kws IH]; intros i t m; simpl.
  - by rewrite (left_id_L ∅ (∪)).
  - rewrite IH, reverse_cons, list_to_map_app. simpl.
    rewrite insert_empty, <- (assoc_L (∪)). by rewrite <- insert_union_singleton_l.
Qed.

Lemma shield_map (t : string) (kws : list string) :
  (replaceKeywordsWithPlaceholders t kws).2 = list_to_map (reverse (entriesFrom 0 kws)).
Proof.
  unfold replaceKeywordsWithPlaceholders. by rewrite shieldFrom_map, (right_id_L ∅ (∪)).
Qed.

(** A [range] over the map visits the stored pairs, in some order. *)
Lemma shield_entries (t : string) (kws : list string) :
  map_to_list (replaceKeywordsWithPlaceholders t kws).2 ≡ₚ entriesFrom 0 kws.
Proof.
  rewrite shield_map, map_to_list_to_map.
  - apply reverse_Permutation.
  - rewrite fmap_reverse, reverse_Permutation. apply entriesFrom_NoDup.
Qed.

Lemma shield_lookup (t : string) (kws : list string) (p k : string) :
  (replaceKeywordsWithPlaceholders t kws).2 !! p = Some k
  ↔ ∃ i, p = placeholder i ∧ kws !! i = Some k.
Proof.
  rewrite shield_map. rewrite <- elem_of_list_to_map.
  2: { rewrite fmap_reverse, reverse_Permutation. apply entriesFrom_NoDup. }
  rewrite elem_of_reverse, list_elem_of_lookup. split.
  - intros [j Hj]. rewrite entriesFrom_lookup in Hj.
    destruct (kws !! j) as [k'|] eqn:E; [|done]. simpl in Hj. exists j. naive_solver.
  - intros (j & -> & Hj). exists j. by rewrite entriesFrom_lookup, Hj.
Qed.



Lemma tokenEntries_perm (l l' : list (string * string)) :
  l ≡ₚ l' → tokenEntries l → tokenEntries l'.
Proof. intros Hp [H1 H2]. split; by rewrite <- Hp. Qed.

(** The second pass does not depend on the order of the entries. *)
Lemma replaceEntries_perm (l l' : list (string * string)) (T : string) :
  tokenEntries l → l ≡ₚ l' → replaceEntries l T = replaceEntries l' T.
Proof.
  intros Hl Hp. revert T Hl.
  induction Hp as [|x l l' Hp IH|x y l|l l' l'' Hp1 IH1 Hp2 IH2]; intros T Hl.
  - done.
  - apply IH. destruct Hl as [H1 H2]. split.
    + simpl in H1. by apply NoDup_cons in H1 as [_ ?].
    + by apply Forall_cons in H2 as [_ ?].
  - unfold replaceEntries. simpl. f_equal.
    destruct Hl as [H1 H2]. simpl in H1.
    apply NoDup_cons in H1 as [Hne _].
    apply Forall_cons in H2 as [[[j Hj] Hy] H2].
    apply Forall_cons in H2 as [[[i Hi] Hx] _].
    rewrite Hi, Hj. apply ReplaceAll_comm; [|done..].
    intros ->. apply Hne. rewrite Hi, Hj. by left.
  - rewrite IH1 by done. apply IH2. by eapply tokenEntries_perm.
Qed.
End passes.

(** ** The passes, piece by piece *)

Section pieces.
Import GoStrings.

Lemma flat_app (ps qs : list piece) : flat (ps ++ qs) = flat ps ++ flat qs.
Proof. induction ps as [|x ps IH]; [done|]. simpl. by rewrite IH, app_assoc. Qed.

Lemma flat_Raw (u : bytes) : flat (Raw <$> u) = u.
Proof. induction u as [|c u IH]; [done|]. csimpl. by rewrite IH. Qed.

Lemma expText_app (kws : list string) (ps qs : list piece) :
  expText kws (ps ++ qs) = expText kws ps ++ expText kws qs.
Proof.
  induction ps as [|[c|i] ps IH]; simpl; [done|by rewrite IH|by rewrite IH, app_assoc].
Qed.

Lemma expText_Raw (kws : list string) (u : bytes) : expText kws (Raw <$> u) = u.
Proof. induction u as [|c u IH]; [done|]. csimpl. by rewrite IH. Qed.

Lemma flat_no_Tok (kws : list string) (ps : list piece) :
  (∀ l, Tok l ∉ ps) → flat ps = expText kws ps.
Proof.
  induction ps as [|[c|i] ps IH]; intros H; simpl; [done|..].
  - f_equal. apply IH. intros l Hl. apply (H l). by right.
  - exfalso. apply (H i). by left.
Qed.

Lemma placeholder_length_pos (l : nat) : 0 < length (bs (placeholder l)).
Proof. rewrite bs_placeholder. simpl. lia. Qed.

(** A block in which no instance of [k] begins is copied. *)
Lemma replaceAll_skip_block (u Y k q : bytes) :
  k ≠ [] →
  (∀ a, a < length u → hasPrefix (drop a (u ++ Y)) k = false) →
  replaceAll (u ++ Y) k q = u ++ replaceAll Y k q.
Proof.
  intros Hk. induction u as [|c u IH]; intros H; [done|]. simpl.
  rewrite replaceAll_skip, IH; try done.
  - intros a Ha. apply (H (S a)). simpl. lia.
  - apply (H 0). simpl. lia.
Qed.

(** A run of bytes other than [K] that begins the text begins the text
    with the tokens replaced as well. *)
Lemma body_prefix_expText (kws : list string) (b : bytes) (ps : list piece) :
  Forall (λ c, c ≠ "K"%char) b → b `prefix_of` flat ps → b `prefix_of` expText kws ps.
Proof.
  intros Hb. revert ps. induction Hb as [|a b Ha _ IH]; intros ps; [intros; apply prefix_nil|].
  destruct ps as [|[c|i] ps]; cbn [flat flatPiece expText app].
  - intros H. by apply prefix_nil_not in H.
  - intros H. rewrite (prefix_cons_inv_1 _ _ _ _ H). apply prefix_cons, IH.
    by apply prefix_cons_inv_2 in H.
  - rewrite bs_placeholder. simpl. intros H%prefix_cons_inv_1. done.
Qed.

Lemma token_body_no_K (i : nat) :
  ∃ b, bs (placeholder i) = "K"%char :: b ∧ Forall (λ c, c ≠ "K"%char) b.
Proof.
  destruct (placeholder_isToken i) as (b & E & Hb). exists b. split; [done|].
  eapply Forall_impl; [exact Hb|]. by intros c Hc ->.
Qed.

(** One round of the second pass: the tokens of index [i] give way to
    their keyword, when the text with all tokens replaced holds no
    instance of the token. *)
Lemma unshield_step (kws : list string) (i : nat) (ps : list piece) :
  index (expText kws ps) (bs (placeholder i)) = None →
  replaceAll (flat ps) (bs (placeholder i)) (bs (keywordAt kws i))
  = flat (expandIdx kws i ps).
Proof.
  pose proof (isToken_ne _ (placeholder_isToken i)) as Hne.
  induction ps as [|[c|l] ps IH]; cbn [flat flatPiece expText expandIdx app]; intros Hx.
  - by apply replaceAll_nil.
  - apply index_None_cons in Hx as [Hx1 Hx2]. rewrite replaceAll_skip, IH; try done.
    apply hasPrefix_false. intros Hp. apply hasPrefix_false in Hx1. apply Hx1.
    destruct (token_body_no_K i) as (b & Eb & Hb). rewrite Eb in Hp |- *.
    rewrite (prefix_cons_inv_1 _ _ _ _ Hp). apply prefix_cons.
    apply prefix_cons_inv_2 in Hp. by apply body_prefix_expText.
  - apply index_None_app_r in Hx. destruct (decide (l = i)) as [->|Hli].
    + rewrite replaceAll_match by done. rewrite flat_app, flat_Raw. by rewrite IH.
    + cbn [flat flatPiece app]. rewrite <- IH by done.
      destruct (isToken_body _ _ (placeholder_isToken l) (placeholder_isToken i))
        as (b & Eb & Hb).
      rewrite Eb. cbn [app]. rewrite replaceAll_skip, replaceAll_skip_all; try done.
      apply hasPrefix_false. intros Hp. apply Hli. symmetry.
      apply (placeholder_prefix_free i l (flat ps)). by rewrite Eb.
Qed.

Lemma expText_expandIdx (kws : list string) (i : nat) (ps : list piece) :
  expText kws (expandIdx kws i ps) = expText kws ps.
Proof.
  induction ps as [|[c|l] ps IH]; simpl; [done|by rewrite IH|].
  rewrite expText_app, IH. f_equal. destruct (decide (l = i)); [apply expText_Raw|].
  simpl. by rewrite app_nil_r.
Qed.

Lemma Tok_expandIdx (kws : list string) (i l : nat) (ps : list piece) :
  Tok l ∈ expandIdx kws i ps → Tok l ∈ ps ∧ l ≠ i.
Proof.
  induction ps as [|[c|l'] ps IH]; simpl.
  - intros H. by apply elem_of_nil in H.
  - intros H. apply elem_of_cons in H as [H|H]; [done|].
    destruct (IH H). split; [by right|done].
  - intros H. apply elem_of_app in H as [H|H].
    + destruct (decide (l' = i)) as [->|Hne].
      * apply list_elem_of_fmap in H as (c & Hc & _). done.
      * apply list_elem_of_singleton in H. injection H as ->. split; [by left|done].
    + destruct (IH H). split; [by right|done].
Qed.

(** The second pass over entries in any order. *)
Lemma unshield_entries (kws : list string) (l : list (string * string)) (ps : list piece)
    (T : string) :
  bs T = flat ps →
  Forall (λ e, ∃ i, e = (placeholder i, keywordAt kws i)
                 ∧ index (expText kws ps) (bs (placeholder i)) = None) l →
  ∃ ps', bs (replaceEntries l T) = flat ps'
    ∧ expText kws ps' = expText kws ps
    ∧ ∀ i, Tok i ∈ ps' → Tok i ∈ ps ∧ (placeholder i, keywordAt kws i) ∉ l.
Proof.
  intros HT Hl. revert T ps HT Hl. induction l as [|e l IH]; intros T ps HT Hl.
  - exists ps. split; [done|]. split; [done|]. intros i Hi. split; [done|].
    apply not_elem_of_nil.
  - apply Forall_cons in Hl as [(i & -> & Hi) Hl].
    change (replaceEntries ((placeholder i, keywordAt kws i) :: l) T)
      with (replaceEntries l (ReplaceAll T (placeholder i) (keywordAt kws i))).
    destruct (IH (ReplaceAll T (placeholder i) (keywordAt kws i)) (expandIdx kws i ps))
      as (ps' & E1 & E2 & E3).
    + rewrite bs_ReplaceAll, HT. by apply unshield_step.
    + eapply Forall_impl; [exact Hl|]. intros e (j & -> & Hj). exists j.
      split; [done|]. by rewrite expText_expandIdx.
    + exists ps'. split; [done|]. split; [by rewrite E2, expText_expandIdx|].
      intros j Hj. destruct (E3 j Hj) as [Hin Hnl].
      apply Tok_expandIdx in Hin as [Hin Hji]. split; [done|].
      intros H. apply elem_of_cons in H as [H|H]; [|done].
      apply (f_equal fst) in H. cbn [fst] in H. by apply placeholder_inj in H.
Qed.

Lemma NoTouch_tail (k : bytes) (x : piece) (ps : list piece) :
  NoTouch k (x :: ps) → NoTouch k ps.
Proof.
  intros H a pre l post E Hp.
  destruct (H (length (flatPiece x) + a) (x :: pre) l post) as [H'|H'].
  - by rewrite E.
  - cbn [flat]. by rewrite drop_app_add.
  - left. cbn [flat] in H'. rewrite length_app in H'. lia.
  - right. cbn [flat] in H'. rewrite length_app in H'. lia.
Qed.

Lemma NoTouch_drop (k : bytes) (pre ps : list piece) : NoTouch k (pre ++ ps) → NoTouch k ps.
Proof.
  induction pre as [|x pre IH]; [done|]. simpl. intros H. apply NoTouch_tail in H. by apply IH.
Qed.

(** An instance at the front that overlaps no token is made of bytes of
    the original. *)
Lemma raw_prefix (k : bytes) (ps : list piece) :
  k `prefix_of` flat ps →
  (∀ pre l post, ps = pre ++ Tok l :: post → length k ≤ length (flat pre)) →
  ∃ rest, ps = (Raw <$> k) ++ rest.
Proof.
  revert ps. induction k as [|a k IH]; intros ps Hp H; [by exists ps|].
  destruct ps as [|[c|l] ps]; simpl in Hp.
  - by apply prefix_nil_not in Hp.
  - rewrite (prefix_cons_inv_1 _ _ _ _ Hp). apply prefix_cons_inv_2 in Hp.
    destruct (IH ps Hp) as [rest ->].
    + intros pre l post E. specialize (H (Raw c :: pre) l post). simpl in H.
      rewrite E in H. specialize (H eq_refl). lia.
    + by exists rest.
  - specialize (H [] l ps eq_refl). simpl in H. lia.
Qed.

(** One round of the first pass: when the instances of the keyword
    overlap no token, they are instances in the original, and give way to
    the token of the round. *)
Lemma shield_step (kws : list string) (j : nat) (k : string) (ps : list piece) :
  k ≠ "" → kws !! j = Some k → NoTouch (bs k) ps →
  ∃ ps', replaceAll (flat ps) (bs k) (bs (placeholder j)) = flat ps'
    ∧ expText kws ps' = expText kws ps
    ∧ ∀ l, Tok l ∈ ps' → Tok l ∈ ps ∨ l = j.
Proof.
  intros Hk Hj. assert (Hkb : bs k ≠ []) by by rewrite bs_nil.
  assert (Hkl : 0 < length (bs k)) by (destruct (bs k); [done|simpl; lia]).
  remember (length ps) as n eqn:Hn. revert ps Hn.
  induction (lt_wf n) as [n _ IH]. intros ps -> Hnt.
  destruct ps as [|[c|l] ps].
  - exists []. rewrite replaceAll_nil by done. split; [done|]. split; [done|].
    intros l Hl. by apply elem_of_nil in Hl.
  - destruct (hasPrefix (flat (Raw c :: ps)) (bs k)) eqn:Hp.
    + apply hasPrefix_prefix in Hp.
      destruct (raw_prefix (bs k) (Raw c :: ps) Hp) as [rest E].
      { intros pre l post E. destruct (Hnt 0 pre l post E) as [H|H].
        - rewrite drop_0. by apply hasPrefix_prefix.
        - lia.
        - pose proof (placeholder_length_pos l). lia. }
      rewrite E in Hnt |- *. apply NoTouch_drop in Hnt.
      destruct (IH (length rest)) with (ps := rest) as (ps' & E1 & E2 & E3); [|done|done|].
      { rewrite E, length_app, length_fmap. lia. }
      exists (Tok j :: ps'). rewrite flat_app, flat_Raw, replaceAll_match by done.
      split; [cbn [flat flatPiece]; by rewrite E1|]. split.
      * cbn [expText]. rewrite E2, expText_app, expText_Raw. unfold keywordAt. by rewrite Hj.
      * intros l Hl. apply elem_of_cons in Hl as [[= ->]|Hl]; [by right|].
        destruct (E3 l Hl) as [H|H]; [|by right]. left. apply elem_of_app. by right.
    + destruct (IH (length ps)) with (ps := ps) as (ps' & E1 & E2 & E3);
        [simpl; lia|done|by eapply NoTouch_tail|].
      exists (Raw c :: ps'). cbn [flat flatPiece app expText] in Hp |- *.
      rewrite replaceAll_skip by done.
      split; [by rewrite E1|]. split; [by rewrite E2|].
      intros l Hl. apply elem_of_cons in Hl as [Hl|Hl]; [done|].
      destruct (E3 l Hl) as [H|H]; [left; by right|by right].
  - destruct (IH (length ps)) with (ps := ps) as (ps' & E1 & E2 & E3);
      [simpl; lia|done|by eapply NoTouch_tail|].
    exists (Tok l :: ps'). cbn [flat flatPiece expText]. rewrite replaceAll_skip_block; [|done|].
    + split; [by rewrite E1|]. split; [by rewrite E2|].
      intros l' Hl. apply elem_of_cons in Hl as [[= ->]|Hl]; [left; by left|].
      destruct (E3 l' Hl) as [H|H]; [left; by right|by right].
    + intros a Ha. destruct (hasPrefix (drop a (bs (placeholder l) ++ flat ps)) (bs k)) eqn:Hp;
        [|done].
      destruct (Hnt a [] l ps eq_refl Hp) as [H|H]; cbn [flat length] in H; lia.
Qed.

(** From the check on the text to the pieces. *)
Lemma touches_NoTouch (s k : string) (j : nat) (ps : list piece) :
  bs s = flat ps → (∀ l, Tok l ∈ ps → l < j) →
  existsb (λ l, touches s k (placeholder l)) (seq 0 j) = false →
  NoTouch (bs k) ps.
Proof.
  intros Hs Hlt Hex a pre l post E Hp.
  destruct (decide (a + length (bs k) ≤ length (flat pre))) as [|H1]; [by left|].
  destruct (decide (length (flat pre) + length (bs (placeholder l)) ≤ a)) as [|H2]; [by right|].
  exfalso. apply not_true_iff_false in Hex. apply Hex.
  apply existsb_exists. exists l. split.
  { apply in_seq. assert (l < j); [|lia]. apply Hlt. rewrite E. apply elem_of_app. right. by left. }
  assert (Hflat : flat ps = flat pre ++ bs (placeholder l) ++ flat post).
  { by rewrite E, flat_app. }
  assert (Hlen : length (flat ps)
                 = length (flat pre) + length (bs (placeholder l)) + length (flat post)).
  { rewrite Hflat, !length_app. lia. }
  unfold touches. rewrite Hs. apply existsb_exists. exists a. split; [apply in_seq; lia|].
  apply existsb_exists. exists (length (flat pre)). split; [apply in_seq; lia|].
  unfold touchesAt. rewrite !andb_true_iff. split; [split; [split; [done|]|]|].
  - rewrite Hflat. by rewrite drop_app_length, hasPrefix_app.
  - apply Nat.ltb_lt. lia.
  - apply Nat.ltb_lt. lia.
Qed.

(** The first pass, round after round. *)
Lemma shield_pieces (kws todo done : list string) (ps : list piece) (s : string)
    (m : gmap string string) :
  kws = done ++ todo → bs s = flat ps → (∀ l, Tok l ∈ ps → l < length done) →
  Forall (λ k, k ≠ "") todo → crossesFrom (length done) s todo = false →
  ∃ ps', bs (shieldFrom (length done) s todo m).1 = flat ps'
    ∧ expText kws ps' = expText kws ps
    ∧ ∀ l, Tok l ∈ ps' → l < length kws.
Proof.
  intros Hkws Hs Hlt Hne. revert done ps s m Hkws Hs Hlt.
  induction Hne as [|k todo Hk _ IH]; intros done ps s m Hkws Hs Hlt Hc; simpl.
  - exists ps. split; [done|]. split; [done|]. intros l Hl. rewrite Hkws, app_nil_r. by apply Hlt.
  - simpl in Hc. apply orb_false_iff in Hc as [Hc1 Hc2].
    assert (Hj : kws !! length done = Some k).
    { rewrite Hkws. by rewrite lookup_app_r, Nat.sub_diag by lia. }
    assert (Hnt : NoTouch (bs k) ps) by (by eapply touches_NoTouch).
    destruct (shield_step kws (length done) k ps Hk Hj Hnt) as (qs & G1 & G2 & G3).
    destruct (IH (done ++ [k]) qs (ReplaceAll s k (placeholder (length done)))
                (<[placeholder (length done) := k]> m)) as (ps' & F1 & F2 & F3).
    + by rewrite <- app_assoc.
    + by rewrite bs_ReplaceAll, Hs.
    + intros l Hl. rewrite length_app. simpl. destruct (G3 l Hl) as [H| ->]; [|lia].
      apply Hlt in H. lia.
    + rewrite length_app. simpl. by replace (length done + 1) with (S (length done)) by lia.
    + rewrite length_app in F1. simpl in F1.
      replace (length done + 1) with (S (length done)) in F1 by lia.
      exists ps'. split; [done|]. split; [by rewrite F2, G2|done].
Qed.

Lemma entriesFrom_keywordAt (kws : list string) (e : string * string) :
  e ∈ entriesFrom 0 kws ↔
  ∃ i, i < length kws ∧ e = (placeholder i, keywordAt kws i).
Proof.
  rewrite list_elem_of_lookup. split.
  - intros [i Hi]. rewrite entriesFrom_lookup in Hi.
    destruct (kws !! i) as [k|] eqn:Hk; [|done]. simpl in Hi. injection Hi as <-.
    exists i. split; [by eapply lookup_lt_Some|]. unfold keywordAt. by rewrite Hk.
  - intros (i & Hi & ->). exists i. rewrite entriesFrom_lookup.
    destruct (lookup_lt_is_Some_2 kws i Hi) as [k Hk]. unfold keywordAt. by rewrite Hk.
Qed.

(** A plain keyword leaves a token where it is and works on either side
    of it. *)
Lemma replaceAll_keeps_token (a b p k q : bytes) :
  k ≠ [] → clearInside p k → clearOf p k → p ≠ [] →
  replaceAll (a ++ p ++ b) k q = replaceAll a k q ++ p ++ replaceAll b k q.
Proof.
  intros Hk Hi Hc Hp.
  assert (Hin : ∀ u, u ≠ [] → u `suffix_of` k → ¬ u `prefix_of` p ++ b).
  { intros u Hu Hs Hpre. assert (agree p u = true) as E.
    { apply agree_prefix. eapply prefix_weak_total; [by apply prefix_app_r|exact Hpre]. }
    rewrite Hi in E; done. }
  induction a as [|r IH|c r Hnp IH] using (scan_ind k Hk).
  - rewrite replaceAll_nil by done. simpl. apply replaceAll_skip_block; [done|].
    intros n Hn. apply hasPrefix_false. intros Hpre.
    rewrite drop_app_le in Hpre by lia.
    destruct n as [|n].
    + rewrite drop_0 in Hpre. by apply (Hin k Hk).
    + assert (agree (drop (S n) p) k = true) as E.
      { apply agree_prefix. eapply prefix_weak_total; [by apply prefix_app_r|exact Hpre]. }
      rewrite Hc in E; [done| |].
      * intros E'. apply (f_equal length) in E'. rewrite length_drop in E'. simpl in E'. lia.
      * destruct p as [|x p]; [done|]. simpl. apply suffix_drop.
  - rewrite <- app_assoc, !replaceAll_match by done. by rewrite IH, <- app_assoc.
  - simpl. rewrite !replaceAll_skip, IH; try done.
    apply hasPrefix_false. intros Hpre. apply hasPrefix_false in Hnp.
    destruct (prefix_weak_total k (c :: r) ((c :: r) ++ p ++ b) Hpre) as [H|[u Hu]];
      [by apply prefix_app_r|done|].
    apply (Hin u).
    + intros ->. rewrite app_nil_r in Hu. apply Hnp. by rewrite Hu.
    + by exists (c :: r).
    + rewrite Hu in Hpre. change (c :: r ++ p ++ b) with ((c :: r) ++ p ++ b) in Hpre.
      by apply prefix_app_inv in Hpre.
Qed.

Lemma ReplaceAll_keeps_token (a b k : string) (l i : nat) :
  plainKeyword k = true →
  ReplaceAll (a +:+ placeholder l +:+ b) k (placeholder i)
  = ReplaceAll a k (placeholder i) +:+ placeholder l +:+ ReplaceAll b k (placeholder i).
Proof.
  intros Hk. apply bs_inj. rewrite !bs_app, !bs_ReplaceAll, !bs_app.
  apply replaceAll_keeps_token.
  - rewrite bs_nil. by apply plainKeyword_ne.
  - by apply plainKeyword_clearInside.
  - by apply plainKeyword_clearOf.
  - apply isToken_ne, placeholder_isToken.
Qed.
(** A keyword none of whose instances overlaps the instance of [p]
    behind [a] leaves it where it is and works on either side of it. *)
Lemma replaceAll_apart (a b p k q : bytes) :
  k ≠ [] → p ≠ [] →
  (∀ x, hasPrefix (drop x (a ++ p ++ b)) k = true →
        x + length k ≤ length a ∨ length a + length p ≤ x) →
  replaceAll (a ++ p ++ b) k q = replaceAll a k q ++ p ++ replaceAll b k q.
Proof.
  intros Hk Hp. assert (0 < length k) by (destruct k; [done|simpl; lia]).
  assert (0 < length p) by (destruct p; [done|simpl; lia]).
  induction a as [|r IH|c r Hnp IH] using (scan_ind k Hk); intros Hx.
  - rewrite replaceAll_nil by done. simpl. apply replaceAll_skip_block; [done|].
    intros x Hlt. destruct (hasPrefix (drop x (p ++ b)) k) eqn:E; [|done].
    destruct (Hx x E) as [H'|H']; simpl in H'; lia.
  - rewrite <- app_assoc, !replaceAll_match by done. rewrite IH; [by rewrite <- app_assoc|].
    intros x E. destruct (Hx (length k + x)) as [H'|H'].
    + by rewrite <- app_assoc, drop_app_add.
    + left. rewrite length_app in H'. lia.
    + right. rewrite length_app in H'. lia.
  - simpl. rewrite !replaceAll_skip; try done.
    + rewrite IH; [done|]. intros x E. destruct (Hx (S x) E) as [H'|H']; simpl in H'; lia.
    + apply hasPrefix_false. intros Hpre. apply hasPrefix_false in Hnp. apply Hnp.
      destruct (Hx 0) as [H'|H']; [by apply hasPrefix_prefix| |simpl in H'; lia].
      destruct (prefix_weak_total k (c :: r) ((c :: r) ++ p ++ b) Hpre) as [Hkr|Hrk];
        [by apply prefix_app_r|done|].
      apply prefix_length_eq in Hrk; [by rewrite Hrk|]. simpl in H' |- *. lia.
Qed.

Lemma ReplaceAll_apart (a b k : string) (l i : nat) :
  k ≠ "" →
  touches (a +:+ placeholder l +:+ b) k (placeholder l) = false →
  ReplaceAll (a +:+ placeholder l +:+ b) k (placeholder i)
  = ReplaceAll a k (placeholder i) +:+ placeholder l +:+ ReplaceAll b k (placeholder i).
Proof.
  intros Hk Ht. apply bs_inj. rewrite !bs_app, !bs_ReplaceAll, !bs_app.
  apply replaceAll_apart.
  - by rewrite bs_nil.
  - apply isToken_ne, placeholder_isToken.
  - intros x Hx.
    destruct (decide (x + length (bs k) ≤ length (bs a))) as [|H1]; [by left|].
    destruct (decide (length (bs a) + length (bs (placeholder l)) ≤ x)) as [|H2]; [by right|].
    exfalso. apply not_true_iff_false in Ht. apply Ht. unfold touches.
    rewrite !bs_app. set (s := bs a ++ bs (placeholder l) ++ bs b) in *.
    assert (Hlen : length s = length (bs a) + length (bs (placeholder l)) + length (bs b)).
    { unfold s. rewrite !length_app. lia. }
    apply existsb_exists. exists x. split; [apply in_seq; lia|].
    apply existsb_exists. exists (length (bs a)). split; [apply in_seq; lia|].
    unfold touchesAt. rewrite !andb_true_iff. split; [split; [split; [done|]|]|].
    + unfold s. by rewrite drop_app_length, hasPrefix_app.
    + apply Nat.ltb_lt. lia.
    + apply Nat.ltb_lt. lia.
Qed.
End pieces.

(** ** Shielding and unshielding *)

(** The example of the specification. *)
Example shield_fest :
  replaceKeywordsWithPlaceholders "Fest Location: Lyon Details: Fun " ["Fest"; "Lyon"]
  = ("KW0PLH Location: KW1PLH Details: Fun ",
     <[ "KW1PLH" := "Lyon" ]> (<[ "KW0PLH" := "Fest" ]> ∅)).
Proof. vm_compute. reflexivity. Qed.

Lemma shieldFrom_snoc (i : nat) (t : string) (kws : list string) (k : string)
    (m : gmap string string) :
  shieldFrom i t (kws ++ [k]) m =
    (ReplaceAll (shieldFrom i t kws m).1 k (placeholder (i + length kws)),
     <[placeholder (i + length kws) := k]> (shieldFrom i t kws m).2).
Proof.
  revert i t m. induction kws as [|k' kws IH]; intros i t m; simpl.
  - by rewrite Nat.add_0_r.
  - rewrite IH. by replace (S i + length kws) with (i + S (length kws)) by lia.
Qed.

Lemma ReplaceAll_match (s old new : string) :
  old ≠ "" → ReplaceAll (old +:+ s) old new = new +:+ ReplaceAll s old new.
Proof.
  intros H. apply bs_inj. rewrite bs_app, !bs_ReplaceAll, bs_app.
  apply replaceAll_match. by rewrite bs_nil.
Qed.

Lemma ReplaceAll_skip (c : ascii) (s old new : string) :
  old ≠ "" → HasPrefix (String c s) old = false →
  ReplaceAll (String c s) old new = String c (ReplaceAll s old new).
Proof.
  intros H Hp. apply bs_inj. rewrite bs_ReplaceAll.
  change (bs (String c s)) with (c :: bs s).
  change (bs (String c (ReplaceAll s old new))) with (c :: bs (ReplaceAll s old new)).
  rewrite bs_ReplaceAll. apply replaceAll_skip; [by rewrite bs_nil | done].
Qed.

Lemma ReplaceAll_empty (old new : string) : old ≠ "" → ReplaceAll "" old new = "".
Proof.
  intros H. apply bs_inj. rewrite bs_ReplaceAll. apply replaceAll_nil. by rewrite bs_nil.
Qed.

Lemma isRangeOrder_single (order : list (string * string) → list (string * string))
    (e : string * string) :
  isRangeOrder order → order [e] = [e].
Proof. intros H. apply Permutation_singleton_r, H. Qed.

(** The second pass, for any order of the [range], is the pass over the
    stored pairs in the order they were stored. *)
Lemma unshield_any_order (order : list (string * string) → list (string * string))
    (t T : string) (keywords : list string) :
  Forall (λ k, plainKeyword k = true) keywords →
  isRangeOrder order →
  replacePlaceholdersWithKeywords order T (replaceKeywordsWithPlaceholders t keywords).2
  = replaceEntries (entriesFrom 0 keywords) T.
Proof.
  intros Hk Ho. unfold replacePlaceholdersWithKeywords. symmetry.
  apply replaceEntries_perm; [by apply entriesFrom_tokenEntries|].
  rewrite (Ho _). symmetry. apply shield_entries.
Qed.

(** C1, as amended: for a text that holds none of the tokens
    [KW0PLH], ..., [KW(n-1)PLH] of the [n] keywords, and keywords that
    are not empty, when in no round of the first pass an instance of the
    keyword of the round overlaps a token written by an earlier round
    (no keyword crosses the boundary of a placeholder, lies inside one or
    holds one), [replacePlaceholdersWithKeywords] applied to the result
    of [replaceKeywordsWithPlaceholders] gives the text back, whatever
    the order in which the map is visited. *)
Theorem shield_unshield_round_trip
    (order : list (string * string) → list (string * string))
    (t : string) (keywords : list string) :
  Forall (λ k, k ≠ "") keywords →
  Forall (λ i, Index t (placeholder i) = None) (seq 0 (length keywords)) →
  crossesFrom 0 t keywords = false →
  isRangeOrder order →
  replacePlaceholdersWithKeywords order
    (replaceKeywordsWithPlaceholders t keywords).1
    (replaceKeywordsWithPlaceholders t keywords).2 = t.
Proof.
  intros Hne Ht Hc Ho.
  destruct (shield_pieces keywords keywords [] (Raw <$> bs t) t ∅) as (ps & E1 & E2 & E3);
    try done.
  { by rewrite flat_Raw. }
  { intros l Hl. apply list_elem_of_fmap in Hl as (c & Hc' & _). done. }
  rewrite expText_Raw in E2.
  change (shieldFrom (length []) t keywords ∅)
    with (replaceKeywordsWithPlaceholders t keywords) in E1.
  unfold replacePlaceholdersWithKeywords.
  assert (Hperm : order (map_to_list (replaceKeywordsWithPlaceholders t keywords).2)
                  ≡ₚ entriesFrom 0 keywords) by (rewrite (Ho _); apply shield_entries).
  destruct (unshield_entries keywords
              (order (map_to_list (replaceKeywordsWithPlaceholders t keywords).2)) ps _ E1)
    as (ps' & F1 & F2 & F3).
  { apply Forall_forall. intros e He. rewrite Hperm in He.
    apply entriesFrom_keywordAt in He as (i & Hi & ->). exists i. split; [done|].
    rewrite E2. rewrite Forall_forall in Ht. apply (Ht i). apply elem_of_seq. lia. }
  apply bs_inj. rewrite F1, (flat_no_Tok keywords), F2, E2; [done|].
  intros l Hl. destruct (F3 l Hl) as [Hin Hout]. apply Hout. rewrite Hperm.
  apply entriesFrom_keywordAt. exists l. split; [by apply E3|done].
Qed.

Lemma shield_unshield_round_trip_witness :
  replacePlaceholdersWithKeywords (λ l, reverse l)
    (replaceKeywordsWithPlaceholders "Hello world, UK" ["UK"; "Hello"]).1
    (replaceKeywordsWithPlaceholders "Hello world, UK" ["UK"; "Hello"]).2
  = "Hello world, UK".
Proof.
  apply (shield_unshield_round_trip (λ l, reverse l) "Hello world, UK" ["UK"; "Hello"]).
  - repeat (apply Forall_cons_2; [discriminate|]). apply Forall_nil_2.
  - forall_by_compute.
  - vm_compute. reflexivity.
  - intros l. apply reverse_Permutation.
Defined.

(** The check on the rounds, evaluated: keywords that begin like a piece
    of a placeholder pass it on a text where they meet no token; a
    keyword that lies inside a token, or runs across its end, does
    not. *)
Example crossesFrom_examples :
  crossesFrom 0 "Hilton Hotel 2024, UK; HP" ["UK"; "Hilton"; "2024"; "HP"] = false
  ∧ crossesFrom 0 "x W" ["x"; "W"] = true
  ∧ crossesFrom 0 "xello" ["x"; "Hello"] = true.
Proof. vm_compute. repeat split; reflexivity. Qed.

(** C1 as stated fails. The text [KW0PLH] with the one keyword [x], which
    occurs neither in the text nor in the shielded text (so that it
    crosses no boundary), comes back as [x], in every order. And the
    text [x W], which holds no token, with the keywords [x] and [W]: in
    the text [KW0PLH W] left by [x], the instances of [W] that overlap
    the token lie inside it and cross neither of its ends, and the text
    comes back as [KW0PLH W] in one order of the map. *)
Lemma round_trip_fails_on_token_text :
  (let t := "KW0PLH" in
   let keywords := ["x"] in
   let r := replaceKeywordsWithPlaceholders t keywords in
   Forall (λ k, k ≠ "" ∧ Index t k = None ∧ Index r.1 k = None) keywords
   ∧ ∀ order, isRangeOrder order →
       replacePlaceholdersWithKeywords order r.1 r.2 = "x"
       ∧ replacePlaceholdersWithKeywords order r.1 r.2 ≠ t)
  ∧ (let t := "x W" in
     let keywords := ["x"; "W"] in
     let r := replaceKeywordsWithPlaceholders t keywords in
     Forall (λ i, Index t (placeholder i) = None) (seq 0 (length keywords))
     ∧ ReplaceAll t "x" (placeholder 0) = "KW0PLH W"
     ∧ forallb (λ a, forallb (λ b,
          implb (touchesAt (bs "KW0PLH W") (bs "W") (bs (placeholder 0)) a b)
                ((b <? a) && (a + length (bs "W") <? b + length (bs (placeholder 0)))))
          (seq 0 9)) (seq 0 9) = true
     ∧ isRangeOrder (λ l, reverse l)
     ∧ replacePlaceholdersWithKeywords (λ l, reverse l) r.1 r.2 = "KW0PLH W"
     ∧ replacePlaceholdersWithKeywords (λ l, reverse l) r.1 r.2 ≠ t).
Proof.
  split.
  - split; [by repeat constructor|].
    intros order Ho. unfold replacePlaceholdersWithKeywords.
    assert (E : map_to_list (replaceKeywordsWithPlaceholders "KW0PLH" ["x"]).2
                = [("KW0PLH", "x")]) by (vm_compute; reflexivity).
    rewrite E, (isRangeOrder_single order _ Ho). vm_compute. split; [reflexivity | discriminate].
  - split; [forall_by_compute|]. split; [vm_compute; reflexivity|].
    split; [vm_compute; reflexivity|]. split; [intros l; apply reverse_Permutation|].
    vm_compute. split; [reflexivity | discriminate].
Qed.

(** C2, as amended: [replaceKeywordsWithPlaceholders] handles the
    keywords in list order; the keyword at index [i] gets the token
    [KW<i>PLH], which depends on [i] alone and differs from the token of
    every other index (nothing keeps it out of the text); the instances
    of the keyword in the text left by the keywords before it, tokens
    included, are replaced by the token, from left to right, and the pair
    is stored. A plain keyword ([plainKeyword]) leaves every token in
    that text where it is and works on the text on either side of it,
    and so does any keyword none of whose instances overlaps the token in
    that text: a region taken by an earlier keyword is then not seen by
    the later one. A keyword with an instance that overlaps an earlier
    token can rewrite it. *)
Theorem shield_in_list_order (t : string) (keywords : list string) (k : string) :
  k ≠ "" →
  let i := length keywords in
  let r := replaceKeywordsWithPlaceholders t keywords in
  replaceKeywordsWithPlaceholders t (keywords ++ [k])
    = (ReplaceAll r.1 k (placeholder i), <[placeholder i := k]> r.2)
  ∧ (∀ j, placeholder j = placeholder i → j = i)
  ∧ ReplaceAll "" k (placeholder i) = ""
  ∧ (∀ s, ReplaceAll (k +:+ s) k (placeholder i)
          = placeholder i +:+ ReplaceAll s k (placeholder i))
  ∧ (∀ c s, HasPrefix (String c s) k = false →
          ReplaceAll (String c s) k (placeholder i)
          = String c (ReplaceAll s k (placeholder i)))
  ∧ (plainKeyword k = true →
     ∀ a b l, ReplaceAll (a +:+ placeholder l +:+ b) k (placeholder i)
              = ReplaceAll a k (placeholder i) +:+ placeholder l
                +:+ ReplaceAll b k (placeholder i))
  ∧ (∀ a b l, touches (a +:+ placeholder l +:+ b) k (placeholder l) = false →
              ReplaceAll (a +:+ placeholder l +:+ b) k (placeholder i)
              = ReplaceAll a k (placeholder i) +:+ placeholder l
                +:+ ReplaceAll b k (placeholder i)).
Proof.
  intros Hk i r. split_and!.
  - apply (shieldFrom_snoc 0).
  - intros j. apply placeholder_inj.
  - by apply ReplaceAll_empty.
  - intros s. by apply ReplaceAll_match.
  - intros c s. by apply ReplaceAll_skip.
  - intros Hp a b l. by apply ReplaceAll_keeps_token.
  - intros a b l Ht. by apply ReplaceAll_apart.
Qed.

Lemma shield_in_list_order_witness :
  replaceKeywordsWithPlaceholders "abc" (["ab"] ++ ["abc"])
  = (ReplaceAll (replaceKeywordsWithPlaceholders "abc" ["ab"]).1 "abc" (placeholder 1),
     <[placeholder 1 := "abc"]> (replaceKeywordsWithPlaceholders "abc" ["ab"]).2)
  ∧ ReplaceAll ("abc " +:+ placeholder 0 +:+ " abc") "abc" (placeholder 1)
    = ReplaceAll "abc " "abc" (placeholder 1) +:+ placeholder 0
      +:+ ReplaceAll " abc" "abc" (placeholder 1)
  ∧ ReplaceAll ("abc" +:+ placeholder 0 +:+ "abc") "abc" (placeholder 1)
    = ReplaceAll "abc" "abc" (placeholder 1) +:+ placeholder 0
      +:+ ReplaceAll "abc" "abc" (placeholder 1).
Proof.
  assert (H : "abc" ≠ "") by discriminate.
  destruct (shield_in_list_order "abc" ["ab"] "abc" H) as (H1 & _ & _ & _ & _ & H6 & H7).
  split; [exact H1|]. split.
  - apply H6. vm_compute. reflexivity.
  - apply H7. vm_compute. reflexivity.
Defined.

(** The earlier keyword takes the region both keywords match. *)
Example shield_overlap :
  (replaceKeywordsWithPlaceholders "abc" ["ab"; "abc"]).1 = "KW0PLHc"
  ∧ (replaceKeywordsWithPlaceholders "abc" ["abc"; "ab"]).1 = "KW0PLH".
Proof. by vm_compute. Qed.

(** C2 as stated fails: the token of index 0 is a piece of the text
    [KW0PLH rocks], and after the first pass that text cannot be told
    from [rocks rocks]; and in [xW0] the region of the earlier keyword
    [xW] is rewritten by the later keyword [W0], which matches inside the
    token written for [xW]. *)
Lemma placeholder_collides_with_text :
  Index "KW0PLH rocks" (placeholder 0) = Some 0
  ∧ replaceKeywordsWithPlaceholders "KW0PLH rocks" ["rocks"]
    = replaceKeywordsWithPlaceholders "rocks rocks" ["rocks"]
  ∧ (replaceKeywordsWithPlaceholders "xW0" ["xW"]).1 = "KW0PLH0"
  ∧ (replaceKeywordsWithPlaceholders "xW0" ["xW"; "W0"]).1 = "KKW1PLHPLH0".
Proof. vm_compute. repeat split; reflexivity. Qed.

(** C5: with no keywords the first pass returns the text and the empty
    map, and the second pass over the empty map returns its text. *)
Theorem empty_keywords_identity (W : World) (n : nat) (t : string) :
  replaceKeywordsWithPlaceholders t [] = (t, ∅)
  ∧ replacePlaceholdersWithKeywords (map_order W n) t ∅ = t
  ∧ replacePlaceholdersWithKeywords (map_order W n)
      (replaceKeywordsWithPlaceholders t []).1 (replaceKeywordsWithPlaceholders t []).2 = t.
Proof.
  assert (E : replacePlaceholdersWithKeywords (map_order W n) t ∅ = t).
  { unfold replacePlaceholdersWithKeywords. rewrite map_to_list_empty.
    by rewrite (proj1 (Permutation_nil_r _) (map_order_perm W n [])). }
  done.
Qed.

(** C6, as amended: when the keywords are plain ([plainKeyword]: not
    empty, agreeing with no piece of a token behind its [K], and with no
    tail that agrees with a token), two orders of visiting the map that
    the first pass returned give the same text, whatever the translated
    text is. *)
Theorem unshield_order_irrelevant
    (order1 order2 : list (string * string) → list (string * string))
    (t translated : string) (keywords : list string) :
  Forall (λ k, plainKeyword k = true) keywords →
  isRangeOrder order1 → isRangeOrder order2 →
  replacePlaceholdersWithKeywords order1 translated
    (replaceKeywordsWithPlaceholders t keywords).2
  = replacePlaceholdersWithKeywords order2 translated
      (replaceKeywordsWithPlaceholders t keywords).2.
Proof. intros Hk H1 H2. by rewrite !unshield_any_order. Qed.

Lemma unshield_order_irrelevant_witness :
  replacePlaceholdersWithKeywords (λ l, l) "KW1PLH accueille KW0PLH"
    (replaceKeywordsWithPlaceholders "Fest in Lyon" ["Fest"; "Lyon"]).2
  = replacePlaceholdersWithKeywords (λ l, reverse l) "KW1PLH accueille KW0PLH"
      (replaceKeywordsWithPlaceholders "Fest in Lyon" ["Fest"; "Lyon"]).2.
Proof.
  apply (unshield_order_irrelevant (λ l, l) (λ l, reverse l)).
  - forall_by_compute.
  - intros l. reflexivity.
  - intros l. apply reverse_Permutation.
Defined.

(** C6 as stated fails: for the text [x W] and the keywords [x] and [W],
    the shielded text is unshielded to [x W] in one order of the map and
    to [KW0PLH W] in the other. *)
Lemma unshield_order_matters :
  let r := replaceKeywordsWithPlaceholders "x W" ["x"; "W"] in
  isRangeOrder (λ l, l) ∧ isRangeOrder (λ l, reverse l)
  ∧ replacePlaceholdersWithKeywords (λ l, l) r.1 r.2 = "x W"
  ∧ replacePlaceholdersWithKeywords (λ l, reverse l) r.1 r.2 = "KW0PLH W"
  ∧ replacePlaceholdersWithKeywords (λ l, l) r.1 r.2
    ≠ replacePlaceholdersWithKeywords (λ l, reverse l) r.1 r.2.
Proof.
  split; [by intros l|]. split; [intros l; apply reverse_Permutation|].
  vm_compute. split; [reflexivity|]. split; [reflexivity | discriminate].
Qed.

(** C8, as amended: in the map the first pass returns, a token is bound
    exactly when it is [KW<i>PLH] for an index [i] of the list, and then
    to the keyword at [i] and to no other; when no keyword is listed
    twice, two tokens bound to the same keyword are the same token. *)
Theorem placeholderMap_one_to_one (t : string) (keywords : list string) :
  let m := (replaceKeywordsWithPlaceholders t keywords).2 in
  (∀ p k, m !! p = Some k ↔ ∃ i, p = placeholder i ∧ keywords !! i = Some k)
  ∧ (∀ i j, placeholder i = placeholder j → i = j)
  ∧ (NoDup keywords → ∀ p1 p2 k, m !! p1 = Some k → m !! p2 = Some k → p1 = p2).
Proof.
  intros m. split; [apply shield_lookup|]. split; [apply placeholder_inj|].
  intros Hnd p1 p2 k H1 H2.
  apply shield_lookup in H1 as (i & -> & Hi). apply shield_lookup in H2 as (j & -> & Hj).
  f_equal. by eapply NoDup_lookup.
Qed.

Lemma placeholderMap_one_to_one_witness :
  NoDup ["Fest"; "Lyon"]
  ∧ (replaceKeywordsWithPlaceholders "Fest in Lyon" ["Fest"; "Lyon"]).2 !! placeholder 1
    = Some "Lyon"
  ∧ placeholder 0 = "KW0PLH".
Proof.
  assert (Hnd : NoDup ["Fest"; "Lyon"]).
  { apply NoDup_cons. split; [|apply NoDup_singleton].
    intros H. apply list_elem_of_singleton in H. discriminate H. }
  destruct (placeholderMap_one_to_one "Fest in Lyon" ["Fest"; "Lyon"]) as (Hm & _ & Hinj).
  split; [exact Hnd|]. split.
  - apply Hm. exists 1. split; reflexivity.
  - apply (Hinj Hnd (placeholder 0) "KW0PLH" "Fest").
    + apply Hm. exists 0. split; reflexivity.
    + vm_compute. reflexivity.
Defined.

(** C8 as stated fails: a keyword listed twice is the value of two
    tokens. *)
Lemma placeholderMap_not_injective :
  let m := (replaceKeywordsWithPlaceholders "a" ["a"; "a"]).2 in
  m !! "KW0PLH" = Some "a" ∧ m !! "KW1PLH" = Some "a" ∧ "KW0PLH" ≠ "KW1PLH".
Proof. by vm_compute. Qed.

(** ** The handlers *)

(** The failures of the translator the handler can meet, once the
    request is built: no answer, an answer other than 200, a body that
    does not decode, and a decoded answer without a translation. *)
Lemma translateText_failures (W : World) (n : nat) (text lang url k loc jsonBody : string)
    (req : Request) :
  json_marshal W [ {| Text := text |} ] = Ok jsonBody →
  NewRequest W "POST" (url +:+ "&to=" +:+ lang) jsonBody = Ok req →
  let req' := header_add "Ocp-Apim-Subscription-Region" loc
                (header_add "Content-Type" "application/json"
                   (header_add "Ocp-Apim-Subscription-Key" k req)) in
  (∀ e, client_do W n req' = Err e →
     translateText W n text lang url k loc = Err ("error making translation request: " +:+ e))
  ∧ (∀ code body, client_do W n req' = Ok {| StatusCode := code; Body := Ok body |} →
       code ≠ StatusOK →
       translateText W n text lang url k loc
       = Err ("non-OK HTTP status: " +:+ sprint_d code +:+ ", response: " +:+ body))
  ∧ (∀ body e, client_do W n req' = Ok {| StatusCode := StatusOK; Body := Ok body |} →
       json_unmarshal W body = Err e →
       translateText W n text lang url k loc = Err ("error decoding response body: " +:+ e))
  ∧ (∀ body res, client_do W n req' = Ok {| StatusCode := StatusOK; Body := Ok body |} →
       json_unmarshal W body = Ok res →
       (res = [] ∨ ∃ rest, res = {| resp_translations := [] |} :: rest) →
       translateText W n text lang url k loc = Err "no translations found in the response").
Proof.
  intros Hm Hr req'. unfold translateText. rewrite Hm, Hr. fold req'. repeat split.
  - intros e ->. done.
  - intros code body -> Hc. simpl.
    destruct (code =? StatusOK) eqn:E; [|done]. by apply Nat.eqb_eq in E.
  - intros body e -> Hu. simpl. by rewrite Hu.
  - intros body res -> Hu Hres. simpl. rewrite Hu. by destruct Hres as [->|[rest ->]].
Qed.

(** The loop leaves at the first language the translator fails on. *)
Lemma translateLoop_failure (W : World) (text : string) (pm : gmap string string)
    (langs : list string) (n j : nat) (lang cause : string)
    (tr : gmap string string) (calls : list call) :
  langs !! j = Some lang →
  translateText W (n + j) text lang uri key location = Err cause →
  ∃ j' lang' cause',
    j' ≤ j ∧ langs !! j' = Some lang'
    ∧ translateText W (n + j') text lang' uri key location = Err cause'
    ∧ translateLoop W n text pm langs tr calls
      = (Err ("Error translating to " +:+ lang' +:+ ": " +:+ cause'),
         calls ++ ((λ l, (text, l)) <$> take (S j') langs)).
Proof.
  revert n j tr calls. induction langs as [|l0 langs IH]; intros n j tr calls Hj Hf; [done|].
  cbn [translateLoop].
  destruct (translateText W n text l0 uri key location) as [r|c0] eqn:E0.
  - destruct j as [|j].
    { simpl in Hj. injection Hj as ->. rewrite Nat.add_0_r in Hf. congruence. }
    simpl in Hj. replace (n + S j) with (S n + j) in Hf by lia.
    destruct (IH (S n) j (<[l0 := replacePlaceholdersWithKeywords (map_order W (S n)) r pm]> tr)
                (calls ++ [(text, l0)]) Hj Hf) as (j' & lang' & cause' & Hle & Hl & Hc & ->).
    exists (S j'), lang', cause'. split; [lia|]. split; [done|].
    split; [by replace (n + S j') with (S n + j') by lia|].
    f_equal. by rewrite <- app_assoc.
  - exists 0, l0, c0. split; [lia|]. split; [done|]. rewrite Nat.add_0_r. split; [done|].
    done.
Qed.

(** C3: when the name is free and the translator fails on a language of
    the event, [postEvent] answers 500 with one error that names a
    language the translator failed on (the first one) and the cause; the
    answer carries no translation, and the table of events is as
    before. *)
Theorem postEvent_translation_failure (W : World) (event : EventInfo)
    (events : gmap string EventInfo) (j : nat) (lang cause : string) :
  events !! Name event = None →
  Languages event !! j = Some lang →
  translateText W j (preparedOf W event).1 lang uri key location = Err cause →
  ∃ j' lang' cause',
    j' ≤ j ∧ Languages event !! j' = Some lang'
    ∧ translateText W j' (preparedOf W event).1 lang' uri key location = Err cause'
    ∧ postEvent W (Ok event) events
      = ({| status := StatusInternalServerError;
            payload := ErrorBody ("Error translating to " +:+ lang' +:+ ": " +:+ cause') |},
         events,
         (λ l, ((preparedOf W event).1, l)) <$> take (S j') (Languages event)).
Proof.
  intros Hfree Hj Hf. unfold postEvent. rewrite Hfree.
  fold (preparedOf W event). destruct (preparedOf W event) as [text pm] eqn:Ep.
  simpl in Hf |- *.
  destruct (translateLoop_failure W text pm (Languages event) 0 j lang cause ∅ [] Hj Hf)
    as (j' & lang' & cause' & Hle & Hl & Hc & ->).
  exists j', lang', cause'. done.
Qed.

Lemma postEvent_translation_failure_witness :
  ∃ j' lang' cause',
    j' ≤ 1 ∧ ["fr"; "de"] !! j' = Some lang'
    ∧ translateText frOkDeDown j'
        (preparedOf frOkDeDown (festEvent ["fr"; "de"] ["Fest"; "Lyon"])).1
        lang' uri key location = Err cause'
    ∧ postEvent frOkDeDown (Ok (festEvent ["fr"; "de"] ["Fest"; "Lyon"])) ∅
      = ({| status := StatusInternalServerError;
            payload := ErrorBody ("Error translating to " +:+ lang' +:+ ": " +:+ cause') |},
         ∅,
         (λ l, ((preparedOf frOkDeDown (festEvent ["fr"; "de"] ["Fest"; "Lyon"])).1, l))
           <$> take (S j') ["fr"; "de"]).
Proof.
  apply (postEvent_translation_failure frOkDeDown (festEvent ["fr"; "de"] ["Fest"; "Lyon"])
           ∅ 1 "de" "error making translation request: connection refused").
  - reflexivity.
  - reflexivity.
  - vm_compute. reflexivity.
Defined.

(** The example of the specification, evaluated: the error names [de],
    nothing of [fr] is answered and nothing is stored. *)
Example postEvent_fr_de :
  postEvent frOkDeDown (Ok (festEvent ["fr"; "de"] ["Fest"; "Lyon"])) ∅
  = ({| status := 500;
        payload := ErrorBody
          "Error translating to de: error making translation request: connection refused" |},
     ∅,
     [("KW0PLH Location: KW1PLH Details: Fun ", "fr");
      ("KW0PLH Location: KW1PLH Details: Fun ", "de")]).
Proof. vm_compute. reflexivity. Qed.

(** C4: the text composed for the event named [Fest] at [Lyon] with the
    details [Fun], no links and no sponsor message. *)
Theorem composeText_fest (W : World) (languages keywords : list string) :
  composeText (map_order W 0 (map_to_list (LinkNames (festEvent languages keywords))))
    (festEvent languages keywords)
  = "Fest Location: Lyon Details: Fun ".
Proof.
  simpl. rewrite map_to_list_empty.
  by rewrite (proj1 (Permutation_nil_r _) (map_order_perm W 0 [])).
Qed.



(** C9: for an event whose name is in the table, [postEvent] answers
    409, leaves the table as it is, with the stored event under that
    name, and never calls the translator. *)
Theorem postEvent_conflict (W : World) (event stored : EventInfo)
    (events : gmap string EventInfo) :
  events !! Name event = Some stored →
  postEvent W (Ok event) events
  = ({| status := StatusConflict; payload := MessageBody "Event already exists" |},
     events, [])
  ∧ (postEvent W (Ok event) events).1.2 !! Name event = Some stored.
Proof. intros H. unfold postEvent. by rewrite H. Qed.

Lemma postEvent_conflict_witness :
  postEvent frOkDeDown (Ok (festEvent ["fr"] ["Fest"]))
    {[ "Fest" := festEvent [] [] ]}
  = ({| status := StatusConflict; payload := MessageBody "Event already exists" |},
     {[ "Fest" := festEvent [] [] ]}, [])
  ∧ (postEvent frOkDeDown (Ok (festEvent ["fr"] ["Fest"]))
       {[ "Fest" := festEvent [] [] ]}).1.2 !! Name (festEvent ["fr"] ["Fest"])
    = Some (festEvent [] []).
Proof.
  apply (postEvent_conflict frOkDeDown (festEvent ["fr"] ["Fest"]) (festEvent [] [])).
  vm_compute. reflexivity.
Defined.

(** C10: without a [type] in the query, or with an empty one, [getEvent]
    looks the empty name up: 404 when no event is stored under it, 200
    with that event otherwise. *)
Theorem getEvent_without_type (query : gmap string (list string))
    (events : gmap string EventInfo) :
  query !! "type" = None ∨ (∃ rest, query !! "type" = Some ("" :: rest)) →
  getEvent query events
  = match events !! "" with
    | Some event => {| status := StatusOK; payload := EventBody event |}
    | None => {| status := StatusNotFound; payload := ErrorBody "Event not found" |}
    end.
Proof. intros [H|[rest H]]; unfold getEvent, Query; by rewrite H. Qed.

Lemma getEvent_without_type_witness :
  getEvent {[ "type" := [""] ]} {[ "" := festEvent [] [] ]}
  = match ({[ "" := festEvent [] [] ]} : gmap string EventInfo) !! "" with
    | Some event => {| status := StatusOK; payload := EventBody event |}
    | None => {| status := StatusNotFound; payload := ErrorBody "Event not found" |}
    end.
Proof.
  apply (getEvent_without_type {[ "type" := [""] ]} {[ "" := festEvent [] [] ]}).
  right. exists []. reflexivity.
Defined.

(** An event with the empty name can be in the table: [postEvent] stores
    what [c.BindJSON] decoded, and [getEvent] without a [type] returns
    it. *)
Example getEvent_empty_name :
  let e := {| Name := ""; Location := "Lyon"; Details := "Fun"; LinkNames := ∅;
              SponsoredMessage := ""; Languages := []; Keywords := [];
              Translations := ∅ |} in
  getEvent ∅ (postEvent frOkDeDown (Ok e) ∅).1.2
  = {| status := StatusOK; payload := EventBody e |}.
Proof. vm_compute. reflexivity. Qed.

(** ** What a replacement cannot bring about *)

Section instances.
Import GoStrings.

Lemma agree_sym (u k : bytes) : agree u k = agree k u.
Proof.
  revert k. induction u as [|a u IH]; intros [|c k]; simpl; try done.
  rewrite IH. f_equal. apply bool_decide_ext. split; congruence.
Qed.

Lemma index_empty_needle (s : bytes) : index s [] = Some 0.
Proof. by destruct s. Qed.

(** No instance of [x] begins inside a copy of [k] in which none can. *)
Lemma index_None_clear (x k R : bytes) :
  clearInside x k → index R x = None → index (k ++ R) x = None.
Proof.
  intros Hc HR. induction k as [|c k IH]; [done|]. simpl.
  apply index_None_cons. split.
  - apply hasPrefix_false. intros Hp.
    assert (agree x (c :: k) = true) as E.
    { apply agree_prefix. eapply prefix_weak_total; [exact Hp|].
      by apply (prefix_app_r (c :: k) (c :: k) R). }
    rewrite Hc in E; done.
  - apply IH. intros u Hu Hs. apply Hc; [done|]. by apply suffix_cons_r.
Qed.

(** An instance of [x] at the front of the result of a replacement that
    writes [new], which continues no piece of [x], was at the front
    before. *)
Lemma needle_prefix_back (x old new r : bytes) (c : ascii) :
  old ≠ [] → clearOf x new →
  x `prefix_of` c :: replaceAll r old new → x `prefix_of` c :: r.
Proof.
  intros Hold Hc. destruct x as [|a b]; [intros; apply prefix_nil|]. intros H.
  rewrite (prefix_cons_inv_1 _ _ _ _ H). apply prefix_cons.
  apply prefix_cons_inv_2 in H. by eapply (replaceAll_tail_back b r old new).
Qed.

(** A replacement that writes [new] brings no instance of [x], when no
    instance of [x] can begin inside [new] and [new] continues no piece
    of [x]. *)
Lemma no_new_instance (x old new s : bytes) :
  old ≠ [] → clearInside x new → clearOf x new →
  index s x = None → index (replaceAll s old new) x = None.
Proof.
  intros Hold Hi Hc.
  induction s as [|r IH|c r Hp IH] using (scan_ind old Hold); intros Hs.
  - by rewrite replaceAll_nil.
  - rewrite replaceAll_match by done. apply index_None_clear; [done|].
    apply IH. by apply index_None_app_r in Hs.
  - apply index_None_cons in Hs as [Hs1 Hs2]. rewrite replaceAll_skip by done.
    apply index_None_cons. split; [|by apply IH].
    apply hasPrefix_false. intros H. apply hasPrefix_false in Hs1. apply Hs1.
    by eapply needle_prefix_back.
Qed.

(** Under the same conditions, replacing [x] leaves no instance of [x]. *)
Lemma no_instance_left (x new s : bytes) :
  x ≠ [] → clearInside x new → clearOf x new →
  index (replaceAll s x new) x = None.
Proof.
  intros Hx Hi Hc.
  induction s as [|r IH|c r Hp IH] using (scan_ind x Hx).
  - by rewrite replaceAll_nil, index_nil.
  - rewrite replaceAll_match by done. by apply index_None_clear.
  - rewrite replaceAll_skip by done. apply index_None_cons. split; [|done].
    apply hasPrefix_false. intros H. apply hasPrefix_false in Hp. apply Hp.
    by eapply needle_prefix_back.
Qed.

(** A plain keyword and a placeholder, the other way round. *)
Lemma placeholder_clearInside_keyword (k : string) (i : nat) :
  plainKeyword k = true → clearInside (bs k) (bs (placeholder i)).
Proof.
  intros Hk u Hu Hs. rewrite agree_sym.
  destruct (placeholder_isToken i) as (b & Eb & _). rewrite Eb in Hs.
  destruct u as [|a u]; [done|]. apply suffix_cons_inv in Hs as [E|Hs].
  - rewrite E, <- Eb. apply (plainKeyword_clearInside k i Hk); [|done].
    rewrite bs_nil. by apply plainKeyword_ne.
  - apply (plainKeyword_clearOf k i Hk); [done|]. by rewrite Eb.
Qed.

Lemma placeholder_clearOf_keyword (k : string) (i : nat) :
  plainKeyword k = true → clearOf (bs k) (bs (placeholder i)).
Proof.
  intros Hk u Hu Hs. rewrite agree_sym.
  apply (plainKeyword_clearInside k i Hk); [done|].
  destruct (bs k) as [|c r]; [by apply suffix_nil_inv in Hs|]. by apply suffix_cons_r.
Qed.

(** On strings: a plain keyword is gone after it is replaced by a
    placeholder, and stays gone when another keyword is. *)
Lemma ReplaceAll_hides (s k : string) (i : nat) :
  plainKeyword k = true → Index (ReplaceAll s k (placeholder i)) k = None.
Proof.
  intros Hk. unfold Index. rewrite bs_ReplaceAll. apply no_instance_left.
  - rewrite bs_nil. by apply plainKeyword_ne.
  - by apply placeholder_clearInside_keyword.
  - by apply placeholder_clearOf_keyword.
Qed.

Lemma ReplaceAll_keeps_hidden (s k k' : string) (j : nat) :
  plainKeyword k = true → k' ≠ "" → Index s k = None →
  Index (ReplaceAll s k' (placeholder j)) k = None.
Proof.
  intros Hk Hk' Hs. unfold Index. rewrite bs_ReplaceAll. apply no_new_instance; [| | |done].
  - by rewrite bs_nil.
  - by apply placeholder_clearInside_keyword.
  - by apply placeholder_clearOf_keyword.
Qed.

(** A placeholder is gone after it is replaced by a plain keyword, and
    stays gone when another placeholder is. *)
Lemma ReplaceAll_token_gone (T k : string) (i : nat) :
  plainKeyword k = true → Index (ReplaceAll T (placeholder i) k) (placeholder i) = None.
Proof.
  intros Hk. unfold Index. rewrite bs_ReplaceAll. apply no_instance_left.
  - apply isToken_ne, placeholder_isToken.
  - by apply plainKeyword_clearInside.
  - by apply plainKeyword_clearOf.
Qed.

Lemma ReplaceAll_token_stays_gone (T k : string) (i j : nat) :
  plainKeyword k = true → Index T (placeholder i) = None →
  Index (ReplaceAll T (placeholder j) k) (placeholder i) = None.
Proof.
  intros Hk HT. unfold Index. rewrite bs_ReplaceAll. apply no_new_instance; [| | |done].
  - apply isToken_ne, placeholder_isToken.
  - by apply plainKeyword_clearInside.
  - by apply plainKeyword_clearOf.
Qed.

(** A text without an instance of [old] is returned as it is. *)
Lemma ReplaceAll_absent (s old new : string) :
  Index s old = None → ReplaceAll s old new = s.
Proof.
  intros H. apply bs_inj. rewrite bs_ReplaceAll. apply replaceAll_none; [|done].
  intros E. unfold Index in H. by rewrite E, index_empty_needle in H.
Qed.
End instances.

(** ** More on the two passes *)

Lemma shieldFrom_absent (i : nat) (t : string) (kws : list string) (m : gmap string string) :
  Forall (λ k, Index t k = None) kws → (shieldFrom i t kws m).1 = t.
Proof.
  intros H. revert i m. induction H as [|k kws Hk _ IH]; intros i m; simpl; [done|].
  by rewrite (ReplaceAll_absent _ _ _ Hk).
Qed.

(** X1: keywords that do not occur in the text leave it as it is. *)
Theorem shield_absent_keywords (t : string) (keywords : list string) :
  Forall (λ k, Index t k = None) keywords →
  (replaceKeywordsWithPlaceholders t keywords).1 = t.
Proof. apply shieldFrom_absent. Qed.

Lemma shield_absent_keywords_witness :
  (replaceKeywordsWithPlaceholders "Fest in Lyon" ["Paris"; "Nice"]).1 = "Fest in Lyon".
Proof.
  apply (shield_absent_keywords "Fest in Lyon" ["Paris"; "Nice"]). forall_by_compute.
Defined.

(** X2: the map of the first pass holds one pair for each position of
    the keyword list, under the tokens [KW0PLH], ..., [KW(n-1)PLH], also
    when a keyword is listed twice or does not occur in the text. *)
Theorem shield_map_size (t : string) (keywords : list string) :
  size (replaceKeywordsWithPlaceholders t keywords).2 = length keywords
  ∧ dom (replaceKeywordsWithPlaceholders t keywords).2
    = list_to_set (placeholder <$> seq 0 (length keywords)).
Proof.
  split.
  - rewrite <- length_map_to_list, shield_entries.
    by rewrite <- (length_fmap fst), entriesFrom_keys, length_fmap, length_seq.
  - rewrite shield_map, dom_list_to_map_L, fmap_reverse, entriesFrom_keys.
    apply set_eq. intros p. by rewrite !elem_of_list_to_set, elem_of_reverse.
Qed.

Lemma shieldFrom_keeps_hidden (j : nat) (s k : string) (kws : list string)
    (m : gmap string string) :
  plainKeyword k = true → Forall (λ k', k' ≠ "") kws → Index s k = None →
  Index (shieldFrom j s kws m).1 k = None.
Proof.
  intros Hk H. revert j s m. induction H as [|k' kws Hk' _ IH]; intros j s m Hs; simpl; [done|].
  apply IH. by apply ReplaceAll_keeps_hidden.
Qed.

Lemma shieldFrom_hides (i : nat) (t : string) (kws : list string) (m : gmap string string) :
  Forall (λ k, plainKeyword k = true) kws →
  Forall (λ k, Index (shieldFrom i t kws m).1 k = None) kws.
Proof.
  intros H. revert i t m. induction H as [|k kws Hk Hkws IH]; intros i t m; simpl; [done|].
  constructor; [|apply IH].
  apply shieldFrom_keeps_hidden; [done| |by apply ReplaceAll_hides].
  eapply Forall_impl; [exact Hkws|]. intros k'. apply plainKeyword_ne.
Qed.

(** X3: after the first pass over plain keywords, none of the keywords
    occurs in the text that goes to the translator. *)
Theorem shield_hides_keywords (t : string) (keywords : list string) :
  Forall (λ k, plainKeyword k = true) keywords →
  Forall (λ k, Index (replaceKeywordsWithPlaceholders t keywords).1 k = None) keywords.
Proof. apply shieldFrom_hides. Qed.

Lemma shield_hides_keywords_witness :
  Forall (λ k, Index (replaceKeywordsWithPlaceholders
                        "Fest Location: Lyon Details: Fun in Lyon " ["Fest"; "Lyon"]).1 k
               = None) ["Fest"; "Lyon"].
Proof.
  apply (shield_hides_keywords "Fest Location: Lyon Details: Fun in Lyon " ["Fest"; "Lyon"]).
  forall_by_compute.
Defined.

Lemma replaceEntries_absent (l : list (string * string)) (T : string) :
  Forall (λ e, Index T e.1 = None) l → replaceEntries l T = T.
Proof.
  induction 1 as [|e l He _ IH]; [done|]. unfold replaceEntries in *. simpl.
  by rewrite (ReplaceAll_absent _ _ _ He).
Qed.

(** X4: a text in which no key of the map occurs is returned as it is by
    the second pass, whatever the map and the order of the visit: a
    translation that lost or altered a placeholder keeps it, without an
    error. *)
Theorem unshield_without_tokens (order : list (string * string) → list (string * string))
    (T : string) (placeholderMap : gmap string string) :
  isRangeOrder order →
  (∀ p k, placeholderMap !! p = Some k → Index T p = None) →
  replacePlaceholdersWithKeywords order T placeholderMap = T.
Proof.
  intros Ho H. apply replaceEntries_absent. rewrite (Ho _).
  apply Forall_forall. intros [p k] Hin. apply elem_of_map_to_list in Hin. by eapply H.
Qed.

Lemma unshield_without_tokens_witness :
  replacePlaceholdersWithKeywords (λ l, reverse l) "kw0plh accueille kw1plh"
    (replaceKeywordsWithPlaceholders "Fest in Lyon" ["Fest"; "Lyon"]).2
  = "kw0plh accueille kw1plh".
Proof.
  apply (unshield_without_tokens (λ l, reverse l)).
  - intros l. apply reverse_Permutation.
  - intros p k H. apply shield_lookup in H as (i & -> & Hi).
    destruct i as [|[|i]]; [vm_compute; reflexivity..|discriminate Hi].
Defined.

Lemma replaceEntries_keeps_gone (l : list (string * string)) (T : string) (i : nat) :
  tokenEntries l → Index T (placeholder i) = None →
  Index (replaceEntries l T) (placeholder i) = None.
Proof.
  intros [_ Hl]. revert T. induction Hl as [|e l [[j Hj] He] _ IH]; intros T HT; [done|].
  unfold replaceEntries in *. simpl. apply IH. rewrite Hj.
  by apply ReplaceAll_token_stays_gone.
Qed.

Lemma replaceEntries_gone (l : list (string * string)) (T k : string) (i : nat) :
  tokenEntries l → (placeholder i, k) ∈ l →
  Index (replaceEntries l T) (placeholder i) = None.
Proof.
  intros Hl Hin. revert T. induction l as [|e l IH]; intros T.
  { by apply elem_of_nil in Hin. }
  assert (Hl' : tokenEntries l).
  { destruct Hl as [H1 H2]. split.
    - simpl in H1. by apply NoDup_cons in H1 as [_ ?].
    - by apply Forall_cons in H2 as [_ ?]. }
  apply elem_of_cons in Hin as [<-|Hin].
  - change (replaceEntries ((placeholder i, k) :: l) T)
      with (replaceEntries l (ReplaceAll T (placeholder i) k)).
    apply replaceEntries_keeps_gone; [done|]. apply ReplaceAll_token_gone.
    destruct Hl as [_ H2]. by apply Forall_cons in H2 as [[_ ?] _].
  - change (replaceEntries (e :: l) T) with (replaceEntries l (ReplaceAll T e.1 e.2)).
    by apply IH.
Qed.

Lemma unshield_no_token (order : list (string * string) → list (string * string))
    (t T : string) (keywords : list string) (i : nat) :
  Forall (λ k, plainKeyword k = true) keywords → isRangeOrder order →
  i < length keywords →
  Index (replacePlaceholdersWithKeywords order T
           (replaceKeywordsWithPlaceholders t keywords).2) (placeholder i) = None.
Proof.
  intros Hk Ho Hi. rewrite unshield_any_order by done.
  destruct (lookup_lt_is_Some_2 keywords i Hi) as [k Hki].
  apply (replaceEntries_gone _ _ k); [by apply entriesFrom_tokenEntries|].
  apply list_elem_of_lookup. exists i. by rewrite entriesFrom_lookup, Hki.
Qed.

(** X5: after the second pass with the map of plain keywords, none of
    the tokens [KW0PLH], ..., [KW(n-1)PLH] is left in the text, whatever
    the translated text and the order of the visit. *)
Theorem unshield_leaves_no_token (order : list (string * string) → list (string * string))
    (t T : string) (keywords : list string) :
  Forall (λ k, plainKeyword k = true) keywords → isRangeOrder order →
  Forall (λ i, Index (replacePlaceholdersWithKeywords order T
                        (replaceKeywordsWithPlaceholders t keywords).2)
                 (placeholder i) = None)
         (seq 0 (length keywords)).
Proof.
  intros Hk Ho. apply Forall_forall. intros i Hi. apply elem_of_seq in Hi.
  apply unshield_no_token; [done..|lia].
Qed.

Lemma unshield_leaves_no_token_witness :
  Forall (λ i, Index (replacePlaceholdersWithKeywords (λ l, reverse l)
                        "KW1PLH accueille KW0PLHKW0PLH"
                        (replaceKeywordsWithPlaceholders "Fest in Lyon" ["Fest"; "Lyon"]).2)
                 (placeholder i) = None)
         (seq 0 (length ["Fest"; "Lyon"])).
Proof.
  apply (unshield_leaves_no_token (λ l, reverse l)).
  - forall_by_compute.
  - intros l. apply reverse_Permutation.
Defined.

(** ** More on the translator call *)

(** X6: [translateText] returns a text exactly when the body is
    marshalled, the request is accepted, the client answers 200 with a
    readable body that decodes to a list whose first item has a
    translation; the text is the first translation of the first item, and
    the request is a POST to [url&to=lang] with the three headers. *)
Theorem translateText_success (W : World) (n : nat) (text lang url k loc t : string) :
  translateText W n text lang url k loc = Ok t ↔
  ∃ jsonBody resp body items rest,
    json_marshal W [ {| Text := text |} ] = Ok jsonBody
    ∧ new_request_error W "POST" (url +:+ "&to=" +:+ lang) = None
    ∧ client_do W n (translateRequest url lang k loc jsonBody) = Ok resp
    ∧ StatusCode resp = StatusOK
    ∧ Body resp = Ok body
    ∧ json_unmarshal W body
      = Ok ({| resp_translations := {| item_text := t |} :: items |} :: rest).
Proof.
  unfold translateText, NewRequest, translateRequest, header_add. split.
  - destruct (json_marshal W _) as [jsonBody|] eqn:Em; [|done].
    destruct (new_request_error W _ _) eqn:Er; [done|]. simpl.
    destruct (client_do W n _) as [resp|] eqn:Ed; [|done].
    destruct (Body resp) as [body|] eqn:Eb; [|done].
    destruct (StatusCode resp =? StatusOK) eqn:Es; [|done]. simpl.
    destruct (json_unmarshal W body) as [res|] eqn:Eu; [|done].
    destruct res as [|[[|[t0] items]] rest]; try done. simpl. intros [= <-].
    exists jsonBody, resp, body, items, rest. apply Nat.eqb_eq in Es. done.
  - intros (jsonBody & resp & body & items & rest & -> & -> & Ed & Es & Eb & Eu). simpl.
    simpl in Ed. rewrite Ed, Eb, Es. simpl. by rewrite Eu.
Qed.

(** X7: an error of [translateText] is one of seven: marshalling,
    building the request, sending it, reading the body, a status other
    than 200, decoding, or a decoded answer without a translation. *)
Theorem translateText_error_cases (W : World) (n : nat) (text lang url k loc msg : string) :
  translateText W n text lang url k loc = Err msg →
  (∃ e, msg = "error marshaling json: " +:+ e)
  ∨ (∃ e, msg = "error creating request: " +:+ e)
  ∨ (∃ e, msg = "error making translation request: " +:+ e)
  ∨ (∃ e, msg = "error reading response body: " +:+ e)
  ∨ (∃ code body, code ≠ StatusOK
       ∧ msg = "non-OK HTTP status: " +:+ sprint_d code +:+ ", response: " +:+ body)
  ∨ (∃ e, msg = "error decoding response body: " +:+ e)
  ∨ msg = "no translations found in the response".
Proof.
  unfold translateText, NewRequest.
  destruct (json_marshal W _) as [jsonBody|e]; [|intros [= <-]; eauto].
  destruct (new_request_error W _ _) as [e|]; [intros [= <-]; eauto 10|].
  destruct (client_do W n _) as [resp|e]; [|intros [= <-]; eauto 10].
  destruct (Body resp) as [body|e]; [|intros [= <-]; eauto 10].
  destruct (StatusCode resp =? StatusOK) eqn:Es; simpl.
  - destruct (json_unmarshal W body) as [res|e]; [|intros [= <-]; eauto 10].
    destruct res as [|[[|[t0] items]] rest]; try done; intros [= <-]; eauto 10.
  - intros [= <-]. apply Nat.eqb_neq in Es. do 4 right. left. eauto.
Qed.

Lemma translateText_error_cases_witness :
  (∃ e, "error making translation request: connection refused"
        = "error marshaling json: " +:+ e)
  ∨ (∃ e, "error making translation request: connection refused"
          = "error creating request: " +:+ e)
  ∨ (∃ e, "error making translation request: connection refused"
          = "error making translation request: " +:+ e)
  ∨ (∃ e, "error making translation request: connection refused"
          = "error reading response body: " +:+ e)
  ∨ (∃ code body, code ≠ StatusOK
       ∧ "error making translation request: connection refused"
         = "non-OK HTTP status: " +:+ sprint_d code +:+ ", response: " +:+ body)
  ∨ (∃ e, "error making translation request: connection refused"
          = "error decoding response body: " +:+ e)
  ∨ "error making translation request: connection refused"
    = "no translations found in the response".
Proof.
  apply (translateText_error_cases frOkDeDown 1 "Fest" "de" uri key location).
  vm_compute. reflexivity.
Defined.

(** ** More on the handlers *)

Lemma bs_concat (parts : list string) :
  bs (String.concat "" parts) = concat (bs <$> parts).
Proof.
  induction parts as [|x parts IH]; [done|]. destruct parts as [|y parts].
  { simpl. by rewrite app_nil_r. }
  change (String.concat "" (x :: y :: parts)) with (x +:+ String.concat "" (y :: parts)).
  by rewrite bs_app, IH.
Qed.

Lemma foldl_WriteString (b : string) (parts : list string) :
  bs (foldl WriteString b parts) = bs b ++ concat (bs <$> parts).
Proof.
  revert b. induction parts as [|x parts IH]; intros b; simpl.
  - by rewrite app_nil_r.
  - rewrite IH. unfold WriteString. by rewrite bs_app, <- app_assoc.
Qed.

(** X8: the composed text is the name, [Location: ] and the location,
    [Details: ] and the details, the values of the links in the order of
    the visit, each of these followed by one space, and the sponsor
    message; the labels of the links are not in it. *)
Theorem composeText_closed (links : list (string * string)) (event : EventInfo) :
  composeText links event
  = String.concat ""
      ([Name event; " "; "Location: "; Location event; " ";
        "Details: "; Details event; " "]
       ++ ((λ link, link.2 +:+ " ") <$> links)
       ++ [SponsoredMessage event]).
Proof.
  unfold composeText.
  assert (E : ∀ b, foldl (λ b link, WriteString b (link.2 +:+ " ")) b links
                   = foldl WriteString b ((λ link, link.2 +:+ " ") <$> links)).
  { induction links as [|l links IH]; intros b; simpl; [done|]. by rewrite IH. }
  rewrite E. apply bs_inj. rewrite bs_concat, !fmap_app, !concat_app.
  unfold WriteString at 1. rewrite bs_app, foldl_WriteString.
  unfold WriteString. rewrite !bs_app. simpl.
  repeat (rewrite <- !app_assoc || rewrite <- !app_comm_cons).
  simpl. by rewrite ?app_nil_r.
Qed.

(** What a completed loop has done: one call for each language, in
    order, all of them answered; one translation for each language. *)
Lemma translateLoop_Ok (W : World) (text : string) (pm : gmap string string)
    (langs : list string) (n : nat) (tr tr' : gmap string string) (calls calls' : list call) :
  translateLoop W n text pm langs tr calls = (Ok tr', calls') →
  calls' = calls ++ ((λ l, (text, l)) <$> langs)
  ∧ dom tr' = dom tr ∪ list_to_set langs
  ∧ (∀ j l, langs !! j = Some l →
       ∃ r, translateText W (n + j) text l uri key location = Ok r)
  ∧ (∀ l v, tr' !! l = Some v →
       tr !! l = Some v
       ∨ ∃ j r, langs !! j = Some l
           ∧ translateText W (n + j) text l uri key location = Ok r
           ∧ v = replacePlaceholdersWithKeywords (map_order W (S (n + j))) r pm).
Proof.
  revert n tr calls. induction langs as [|l0 langs IH]; intros n tr calls; cbn [translateLoop].
  - intros [= <- <-]. rewrite app_nil_r. split; [done|].
    split; [by rewrite list_to_set_nil, (right_id_L ∅ (∪))|].
    split; [done|]. intros l v H. by left.
  - destruct (translateText W n text l0 uri key location) as [r|e] eqn:E0; [|done].
    intros H. apply IH in H as (Hc & Hd & Hs & Hv). split; [|split; [|split]].
    + rewrite Hc, <- app_assoc. done.
    + rewrite Hd, dom_insert_L, list_to_set_cons.
      by rewrite (comm_L (∪) {[l0]} (dom tr)), <- (assoc_L (∪)).
    + intros [|j] l Hl; simpl in Hl.
      * injection Hl as <-. rewrite Nat.add_0_r. eauto.
      * replace (n + S j) with (S n + j) by lia. eauto.
    + intros l v Hl. destruct (Hv l v Hl) as [H|(j & r' & Hj & Ht & ->)].
      * destruct (decide (l0 = l)) as [<-|Hne].
        -- rewrite lookup_insert_eq in H. injection H as <-. right.
           exists 0, r. rewrite Nat.add_0_r. done.
        -- rewrite lookup_insert_ne in H by done. by left.
      * right. exists (S j), r'. replace (n + S j) with (S n + j) by lia. done.
Qed.


(** What [postEvent] has done when it answers 201. *)
Lemma postEvent_Created_inv (W : World) (bind : result EventInfo)
    (events : gmap string EventInfo) :
  status (postEvent W bind events).1.1 = StatusCreated →
  ∃ event tr,
    bind = Ok event ∧ events !! Name event = None
    ∧ postEvent W bind events
      = ({| status := StatusCreated; payload := EventBody (with_Translations tr event) |},
         <[Name event := with_Translations tr event]> events,
         (λ l, ((preparedOf W event).1, l)) <$> Languages event)
    ∧ dom tr = list_to_set (Languages event)
    ∧ (∀ l v, tr !! l = Some v →
         ∃ j r, Languages event !! j = Some l
           ∧ translateText W j (preparedOf W event).1 l uri key location = Ok r
           ∧ v = replacePlaceholdersWithKeywords (map_order W (S j)) r (preparedOf W event).2).
Proof.
  unfold postEvent. destruct bind as [event|e]; [|done].
  destruct (events !! Name event) eqn:Hn; [done|].
  fold (preparedOf W event). destruct (preparedOf W event) as [text pm] eqn:Ep.
  destruct (translateLoop W 0 text pm (Languages event) ∅ []) as [[tr|msg] calls] eqn:El; [|done].
  intros _. apply translateLoop_Ok in El as (Hc & Hd & _ & Hv).
  exists event, tr. split; [done|]. split; [done|]. split; [by rewrite Hc, Ep|].
  split; [by rewrite Hd, dom_empty_L, (left_id_L ∅ (∪))|].
  intros l v Hl. destruct (Hv l v Hl) as [H|(j & r & ? & ? & ?)]; [by rewrite lookup_empty in H|].
  exists j, r. by rewrite Ep.
Qed.

(** Otherwise the table is as before. *)
Lemma postEvent_not_Created (W : World) (bind : result EventInfo)
    (events : gmap string EventInfo) :
  status (postEvent W bind events).1.1 ≠ StatusCreated →
  (postEvent W bind events).1.2 = events.
Proof.
  unfold postEvent. destruct bind as [event|e]; [|done].
  destruct (events !! Name event); [done|].
  destruct (replaceKeywordsWithPlaceholders _ _) as [text pm].
  by destruct (translateLoop W 0 text pm (Languages event) ∅ []) as [[tr|msg] calls].
Qed.



(** X10: [postEvent] never removes or changes a stored event, and unless
    it answers 201 the table is as before. *)
Theorem postEvent_keeps_stored (W : World) (bind : result EventInfo)
    (events : gmap string EventInfo) :
  (∀ name e, events !! name = Some e → (postEvent W bind events).1.2 !! name = Some e)
  ∧ (status (postEvent W bind events).1.1 ≠ StatusCreated →
     (postEvent W bind events).1.2 = events).
Proof.
  split; [|apply postEvent_not_Created].
  intros name e He.
  destruct (decide (status (postEvent W bind events).1.1 = StatusCreated)) as [Hs|Hs].
  - destruct (postEvent_Created_inv W bind events Hs) as (ev & tr & _ & Hfree & -> & _).
    simpl. rewrite lookup_insert_ne; [done|]. intros E. rewrite <- E in He.
    simpl in He. congruence.
  - by rewrite postEvent_not_Created.
Qed.

Lemma postEvent_tableInv (W : World) (bind : result EventInfo)
    (events : gmap string EventInfo) :
  tableInv events → tableInv (postEvent W bind events).1.2.
Proof.
  intros Hinv.
  destruct (decide (status (postEvent W bind events).1.1 = StatusCreated)) as [Hs|Hs].
  - destruct (postEvent_Created_inv W bind events Hs) as (ev & tr & _ & Hfree & -> & Hd & _).
    simpl. intros name e He. destruct (decide (Name ev = name)) as [<-|Hne].
    + simpl in He. rewrite lookup_insert_eq in He. injection He as <-. done.
    + simpl in He. rewrite lookup_insert_ne in He by done. by apply Hinv.
  - by rewrite postEvent_not_Created.
Qed.

Lemma serve_tableInv (events : gmap string EventInfo)
    (requests : list (World * result EventInfo)) :
  tableInv events → tableInv (serve events requests).
Proof.
  revert events. induction requests as [|r requests IH]; intros events H; [done|].
  apply IH. by apply postEvent_tableInv.
Qed.

Lemma tableInv_empty : tableInv ∅.
Proof. intros name e H. by rewrite lookup_empty in H. Qed.

(** X11: in the table after any run of [postEvent] requests from the
    empty table of [init], every event is stored under its own name and
    has one translation for each of its languages and for nothing
    else. *)
Theorem tableInv_reachable (requests : list (World * result EventInfo)) :
  tableInv (serve init_events requests).
Proof. apply serve_tableInv, tableInv_empty. Qed.

(** X12: what [getEvent] answers with 200, on a table reached from the
    empty one, is an event with the name asked for and with one
    translation for each of its languages. *)
Theorem getEvent_found (requests : list (World * result EventInfo))
    (query : gmap string (list string)) (e : EventInfo) :
  getEvent query (serve init_events requests)
    = {| status := StatusOK; payload := EventBody e |} →
  Name e = Query query "type" ∧ dom (Translations e) = list_to_set (Languages e).
Proof.
  unfold getEvent.
  destruct (serve init_events requests !! Query query "type") as [e'|] eqn:E; [|done].
  intros [= <-]. by apply (serve_tableInv init_events requests tableInv_empty).
Qed.

Lemma getEvent_found_witness :
  Name (with_Translations
          {[ "fr" := "Fest Location: Lyon Details: Fun ";
             "de" := "Fest Location: Lyon Details: Fun " ]}
          (festEvent ["fr"; "de"] ["Fest"; "Lyon"]))
  = Query {[ "type" := ["Fest"] ]} "type"
  ∧ dom (Translations
           (with_Translations
              {[ "fr" := "Fest Location: Lyon Details: Fun ";
                 "de" := "Fest Location: Lyon Details: Fun " ]}
              (festEvent ["fr"; "de"] ["Fest"; "Lyon"])))
    = list_to_set (Languages
                     (with_Translations
                        {[ "fr" := "Fest Location: Lyon Details: Fun ";
                           "de" := "Fest Location: Lyon Details: Fun " ]}
                        (festEvent ["fr"; "de"] ["Fest"; "Lyon"]))).
Proof.
  apply (getEvent_found
           [(echoWorld, Ok (festEvent ["fr"; "de"] ["Fest"; "Lyon"]));
            (frOkDeDown, Ok (festEvent ["fr"] []))]
           {[ "type" := ["Fest"] ]}).
  vm_compute. reflexivity.
Defined.

(** X13: after [postEvent] answered 201 for an event, [getEvent] asked
    for its name answers 200 with the very event of the 201. *)
Theorem postEvent_then_getEvent (W : World) (event : EventInfo)
    (events : gmap string EventInfo) (query : gmap string (list string)) :
  status (postEvent W (Ok event) events).1.1 = StatusCreated →
  Query query "type" = Name event →
  getEvent query (postEvent W (Ok event) events).1.2
  = {| status := StatusOK; payload := payload (postEvent W (Ok event) events).1.1 |}.
Proof.
  intros Hs Hq.
  destruct (postEvent_Created_inv W (Ok event) events Hs) as (ev & tr & [= <-] & _ & -> & _).
  unfold getEvent. rewrite Hq. simpl. by rewrite lookup_insert_eq.
Qed.

Lemma postEvent_then_getEvent_witness :
  getEvent {[ "type" := ["Fest"] ]}
    (postEvent echoWorld (Ok (festEvent ["fr"] ["Fest"])) ∅).1.2
  = {| status := StatusOK;
       payload := payload (postEvent echoWorld (Ok (festEvent ["fr"] ["Fest"])) ∅).1.1 |}.
Proof.
  apply (postEvent_then_getEvent echoWorld (festEvent ["fr"] ["Fest"]) ∅
           {[ "type" := ["Fest"] ]}); vm_compute; reflexivity.
Defined.

(** X14: after [postEvent] answered 201 for an event, a further
    [postEvent] for an event of that name, whatever else it holds and
    whatever the translator does, answers 409 and leaves the table. *)
Theorem postEvent_second_conflict (W W' : World) (event event' : EventInfo)
    (events : gmap string EventInfo) :
  status (postEvent W (Ok event) events).1.1 = StatusCreated →
  Name event' = Name event →
  postEvent W' (Ok event') (postEvent W (Ok event) events).1.2
  = ({| status := StatusConflict; payload := MessageBody "Event already exists" |},
     (postEvent W (Ok event) events).1.2, []).
Proof.
  intros Hs Hn.
  destruct (postEvent_Created_inv W (Ok event) events Hs) as (ev & tr & [= <-] & _ & -> & _).
  unfold postEvent at 1. rewrite Hn. simpl. by rewrite lookup_insert_eq.
Qed.

Lemma postEvent_second_conflict_witness :
  postEvent frOkDeDown (Ok (festEvent ["fr"; "de"] []))
    (postEvent echoWorld (Ok (festEvent ["fr"] ["Fest"])) ∅).1.2
  = ({| status := StatusConflict; payload := MessageBody "Event already exists" |},
     (postEvent echoWorld (Ok (festEvent ["fr"] ["Fest"])) ∅).1.2, []).
Proof.
  apply (postEvent_second_conflict echoWorld frOkDeDown (festEvent ["fr"] ["Fest"])
           (festEvent ["fr"; "de"] []) ∅); vm_compute; reflexivity.
Defined.




(** X16: when [postEvent] answers 201 for an event with plain keywords,
    no stored translation holds one of the tokens [KW0PLH], ...,
    [KW(n-1)PLH] of its keywords, whatever the translator answered. *)
Theorem postEvent_stores_no_token (W : World) (event : EventInfo)
    (events : gmap string EventInfo) :
  status (postEvent W (Ok event) events).1.1 = StatusCreated →
  Forall (λ k, plainKeyword k = true) (Keywords event) →
  ∃ e,
    (postEvent W (Ok event) events).1.2 !! Name event = Some e
    ∧ payload (postEvent W (Ok event) events).1.1 = EventBody e
    ∧ map_Forall (λ _ v, Forall (λ i, Index v (placeholder i) = None)
                           (seq 0 (length (Keywords event))))
        (Translations e).
Proof.
  intros Hs Hk.
  destruct (postEvent_Created_inv W (Ok event) events Hs)
    as (ev & tr & [= <-] & _ & -> & _ & Hv).
  exists (with_Translations tr event). simpl. split; [by rewrite lookup_insert_eq|].
  split; [done|]. intros l v Hlv. destruct (Hv l v Hlv) as (j & r & _ & _ & ->).
  apply Forall_forall. intros i Hi. apply elem_of_seq in Hi.
  apply unshield_no_token; [done|intros l'; apply map_order_perm|lia].
Qed.

Lemma postEvent_stores_no_token_witness :
  ∃ e,
    (postEvent frOkDeDown (Ok (festEvent ["fr"] ["Fest"; "Lyon"])) ∅).1.2
      !! Name (festEvent ["fr"] ["Fest"; "Lyon"]) = Some e
    ∧ payload (postEvent frOkDeDown (Ok (festEvent ["fr"] ["Fest"; "Lyon"])) ∅).1.1
      = EventBody e
    ∧ map_Forall (λ _ v, Forall (λ i, Index v (placeholder i) = None)
                           (seq 0 (length (Keywords (festEvent ["fr"] ["Fest"; "Lyon"])))))
        (Translations e).
Proof.
  apply (postEvent_stores_no_token frOkDeDown (festEvent ["fr"] ["Fest"; "Lyon"]) ∅).
  - vm_compute. reflexivity.
  - forall_by_compute.
Defined.

(** The answer of the example: the keywords are back in the French
    text. *)
Example postEvent_fr :
  Translations <$> ((postEvent frOkDeDown (Ok (festEvent ["fr"] ["Fest"; "Lyon"])) ∅).1.2 !! "Fest")
  = Some {[ "fr" := "Fest Lieu: Lyon Détails: Fun " ]}.
Proof. vm_compute. reflexivity. Qed.

(** What the loop has met when it leaves with an error. *)
Lemma translateLoop_Err (W : World) (text : string) (pm : gmap string string)
    (langs : list string) (n : nat) (tr : gmap string string) (calls calls' : list call)
    (msg : string) :
  translateLoop W n text pm langs tr calls = (Err msg, calls') →
  ∃ j l cause, langs !! j = Some l
    ∧ translateText W (n + j) text l uri key location = Err cause.
Proof.
  revert n tr calls. induction langs as [|l0 langs IH]; intros n tr calls; cbn [translateLoop];
    [done|].
  destruct (translateText W n text l0 uri key location) as [r|e] eqn:E0.
  - intros H. apply IH in H as (j & l & cause & Hj & Hc).
    exists (S j), l, cause. split; [done|]. by replace (n + S j) with (S n + j) by lia.
  - intros _. exists 0, l0, e. by rewrite Nat.add_0_r.
Qed.

(** X17: the four answers of [postEvent]: 400 exactly when the binding
    failed; 409 exactly when the name of the event is in the table; 500
    exactly when the name is free and the translator fails on one of the
    languages; 201 exactly when the name is free and the translator
    answers for every language. *)
Theorem postEvent_status (W : World) (bind : result EventInfo)
    (events : gmap string EventInfo) :
  let st := status (postEvent W bind events).1.1 in
  (st = StatusBadRequest ↔ ∃ e, bind = Err e)
  ∧ (st = StatusConflict ↔ ∃ ev stored, bind = Ok ev ∧ events !! Name ev = Some stored)
  ∧ (st = StatusInternalServerError ↔
       ∃ ev j l cause, bind = Ok ev ∧ events !! Name ev = None
         ∧ Languages ev !! j = Some l
         ∧ translateText W j (preparedOf W ev).1 l uri key location = Err cause)
  ∧ (st = StatusCreated ↔
       ∃ ev, bind = Ok ev ∧ events !! Name ev = None
         ∧ ∀ j l, Languages ev !! j = Some l →
             ∃ r, translateText W j (preparedOf W ev).1 l uri key location = Ok r).
Proof.
  intros st. subst st. unfold postEvent. destruct bind as [ev|e].
  2: { simpl. split_and!; (split; [try (intros H; by vm_compute in H)|]); eauto.
       - by intros (? & ? & ? & ?).
       - by intros (? & ? & ? & ? & ? & ?).
       - by intros (? & ? & ?). }
  destruct (events !! Name ev) as [stored|] eqn:Hn.
  { simpl. split_and!; (split; [try (intros H; by vm_compute in H)|]); eauto.
    - by intros (? & ?).
    - intros (? & ? & ? & ? & [= <-] & ? & ?). congruence.
    - intros (? & [= <-] & ? & ?). congruence. }
  fold (preparedOf W ev). destruct (preparedOf W ev) as [text pm] eqn:Ep.
  destruct (translateLoop W 0 text pm (Languages ev) ∅ []) as [[tr|msg] calls] eqn:El; simpl.
  - pose proof (translateLoop_Ok _ _ _ _ _ _ _ _ _ El) as (_ & _ & Hall & _).
    split_and!; (split; [try (intros H; by vm_compute in H)|]).
    + by intros (? & ?).
    + intros (? & ? & [= <-] & ?). congruence.
    + intros (ev' & j & l & cause & [= <-] & _ & Hj & Hc). rewrite Ep in Hc. simpl in Hc.
      destruct (Hall j l Hj) as [r Hr]. simpl in Hr. congruence.
    + intros _. exists ev. split; [done|]. split; [done|]. by rewrite Ep.
    + done.
  - pose proof (translateLoop_Err _ _ _ _ _ _ _ _ _ El) as (j & l & cause & Hj & Hc).
    split_and!; (split; [try (intros H; by vm_compute in H)|]).
    + by intros (? & ?).
    + intros (? & ? & [= <-] & ?). congruence.
    + intros _. exists ev, j, l, cause. by rewrite Ep.
    + done.
    + intros (ev' & [= <-] & _ & Hall). rewrite Ep in Hall.
      destruct (Hall j l Hj) as [r Hr]. simpl in Hc, Hr. congruence.
Qed.

Lemma serve_lookup_None (events : gmap string EventInfo)
    (requests : list (World * result EventInfo)) (name : string) :
  events !! name = None →
  Forall (λ r, ∀ ev, r.2 = Ok ev → Name ev ≠ name) requests →
  serve events requests !! name = None.
Proof.
  intros He Hr. revert events He. induction Hr as [|[W bind] requests Hr _ IH]; intros events He;
    [done|].
  apply IH. simpl.
  destruct (decide (status (postEvent W bind events).1.1 = StatusCreated)) as [Hs|Hs].
  - destruct (postEvent_Created_inv W bind events Hs) as (ev & tr & Hb & _ & -> & _).
    simpl. rewrite lookup_insert_ne; [done|]. by apply Hr.
  - by rewrite postEvent_not_Created.
Qed.

(** X18: on the table after a run of [postEvent] requests from the empty
    table, [getEvent] answers 404 for a name that none of the requests
    had. *)
Theorem getEvent_never_posted (requests : list (World * result EventInfo))
    (query : gmap string (list string)) :
  Forall (λ r, ∀ ev, r.2 = Ok ev → Name ev ≠ Query query "type") requests →
  getEvent query (serve init_events requests)
  = {| status := StatusNotFound; payload := ErrorBody "Event not found" |}.
Proof.
  intros H. unfold getEvent. by rewrite (serve_lookup_None init_events requests _ eq_refl H).
Qed.

Lemma getEvent_never_posted_witness :
  getEvent {[ "type" := ["Gala"] ]}
    (serve init_events [(echoWorld, Ok (festEvent ["fr"] ["Fest"])); (echoWorld, Err "EOF")])
  = {| status := StatusNotFound; payload := ErrorBody "Event not found" |}.
Proof.
  apply (getEvent_never_posted
           [(echoWorld, Ok (festEvent ["fr"] ["Fest"])); (echoWorld, Err "EOF")]
           {[ "type" := ["Gala"] ]}).
  constructor; [|constructor; [|constructor]].
  - intros ev H. injection H as <-. vm_compute. discriminate.
  - intros ev H. discriminate H.
Defined.
